(** * Expression atlas: the data-aggregation engine of [expression_atlas.py]

    A shallow embedding of the engine inside [main] (delimiter detection,
    matrix reading, group assignment, annotation indexing, per-group means,
    heatmap ordering and replicate series) and the properties the
    specification states about it.

    Text is modelled with [string]; a character is a code point below 256.
    Python dictionaries are [gmap]s, the gene set is a [gset], Python
    exceptions are the [Raise] results of the [result] monad. *)

From Stdlib Require Import Ascii String SpecFloat.
From stdpp Require Import base list list_numbers sorting strings gmap fin_maps pretty.

(** ** Characters and the [str] methods used by the program *)

Definition tab : ascii := "009"%char.
Definition semicolon : ascii := ";"%char.
Definition comma : ascii := ","%char.

(** [c in line], for a one-character string [c]. *)
Fixpoint contains (c : ascii) (line : string) : bool :=
  match line with
  | EmptyString => false
  | String a rest => if Ascii.eqb a c then true else contains c rest
  end.

(** [line.count(c)], for a one-character string [c]. *)
Fixpoint count (c : ascii) (line : string) : nat :=
  match line with
  | EmptyString => 0
  | String a rest => (if Ascii.eqb a c then 1 else 0) + count c rest
  end.

(** [str.isspace] on one character: TAB, LF, VT, FF, CR, the separators
    FS, GS, RS, US, the space, NEL and the no-break space. *)
Definition isspace (c : ascii) : bool :=
  let n := nat_of_ascii c in
  ((9 <=? n)%nat && (n <=? 13)%nat) || ((28 <=? n)%nat && (n <=? 32)%nat)
  || (n =? 133)%nat || (n =? 160)%nat.

(** [s.lstrip()], [s.rstrip()] and [s.strip()] without argument. *)
Fixpoint lstrip (s : string) : string :=
  match s with
  | EmptyString => EmptyString
  | String a rest => if isspace a then lstrip rest else s
  end.

Fixpoint rstrip (s : string) : string :=
  match s with
  | EmptyString => EmptyString
  | String a rest =>
      match rstrip rest with
      | EmptyString => if isspace a then EmptyString else String a EmptyString
      | r => String a r
      end
  end.

Definition strip (s : string) : string := rstrip (lstrip s).

(** [s.split(sep)] for a one-character separator: one more field than
    there are separators, empty fields kept. *)
Fixpoint split (sep : ascii) (s : string) : list string :=
  match s with
  | EmptyString => [EmptyString]
  | String a rest =>
      if Ascii.eqb a sep then EmptyString :: split sep rest
      else match split sep rest with
           | [] => [String a EmptyString]
           | field :: fields => String a field :: fields
           end
  end.

(** [s.lower()] on code points below 256: A-Z and the upper-case letters
    of the Latin-1 block move up by 32. *)
Definition lower_char (c : ascii) : ascii :=
  let n := nat_of_ascii c in
  if ((65 <=? n)%nat && (n <=? 90)%nat)
     || ((192 <=? n)%nat && (n <=? 222)%nat && negb (n =? 215)%nat)
  then ascii_of_nat (n + 32) else c.

Fixpoint lower (s : string) : string :=
  match s with
  | EmptyString => EmptyString
  | String a rest => String (lower_char a) (lower rest)
  end.

(** [needle in s] for strings: [needle] occurs as a substring of [s]. *)
Fixpoint startswith (needle s : string) : bool :=
  match needle, s with
  | EmptyString, _ => true
  | String a n', String b s' => Ascii.eqb a b && startswith n' s'
  | String _ _, EmptyString => false
  end.

Fixpoint str_in (needle s : string) : bool :=
  startswith needle s ||
  match s with
  | EmptyString => false
  | String _ rest => str_in needle rest
  end.

(** ** Delimiter detection (source lines 11-19) *)

Definition detect_delimiter (line : string) : ascii :=
  if contains tab line && (count comma line <=? count tab line)%nat then tab
  else if contains semicolon line then semicolon
  else if contains comma line then comma
  else tab.

(** The priority rule in the specification's words, over the characters of
    the line: (a) a tab is present and tabs are at least as many as commas,
    (b) a semicolon is present, (c) a comma is present, (d) the default. *)
Definition chars (s : string) : list ascii := list_ascii_of_string s.

Definition occurrences (c : ascii) (s : string) : nat :=
  length (filter (λ a, a = c) (chars s)).

Definition delimiter_rule (line : string) : ascii :=
  if decide (tab ∈ chars line ∧ occurrences comma line ≤ occurrences tab line)
  then tab
  else if decide (semicolon ∈ chars line) then semicolon
  else if decide (comma ∈ chars line) then comma
  else tab.

(** ** Exceptions

    A computation that may raise is a [result]: [Ok] carries the value,
    [Raise] the exception.  [x ← e; k] runs [k] when [e] returned and
    propagates the exception otherwise. *)

Inductive exn : Type :=
  | ValueError
  | IndexError
  | KeyError
  | ZeroDivisionError.

Inductive result (A : Type) : Type :=
  | Ok (a : A)
  | Raise (e : exn).

Arguments Ok {A} a.
Arguments Raise {A} e.

#[global] Instance result_ret : MRet result := λ A a, Ok a.
#[global] Instance result_bind : MBind result := λ A B k e,
  match e with
  | Ok a => k a
  | Raise x => Raise x
  end.

(** [try: body / except: handler], with a bare [except] that catches every
    exception. *)
Definition try_except {A} (body handler : result A) : result A :=
  match body with
  | Ok a => Ok a
  | Raise _ => handler
  end.

(** [for x in xs: body], the loop's variables threaded as the state. *)
Fixpoint for_each {A S} (xs : list A) (body : A → S → result S) (st : S)
  : result S :=
  match xs with
  | [] => Ok st
  | x :: rest => st' ← body x st; for_each rest body st'
  end.

(** [l[i]] on a list: [IndexError] out of range. *)
Definition py_index {A} (l : list A) (i : nat) : result A :=
  match l !! i with
  | Some a => Ok a
  | None => Raise IndexError
  end.

(** [d[k]] on a dictionary: [KeyError] when the key is absent. *)
Definition py_getitem {V} (d : gmap string V) (k : string) : result V :=
  match d !! k with
  | Some v => Ok v
  | None => Raise KeyError
  end.

(** [max(xs)]: [ValueError] on an empty collection. *)
Definition py_max (xs : list nat) : result nat :=
  match xs with
  | [] => Raise ValueError
  | x :: rest => Ok (foldl Nat.max x rest)
  end.

(** [f.readline()] at the start of a file given as its lines: the empty
    string at end of file. *)
Definition readline (f : list string) : string :=
  match f with
  | [] => EmptyString
  | line :: _ => line
  end.

(** ** The interpreter's floats

    [float(x)], [sum], [/] and [round(_, 2)] are the interpreter's, not the
    program's: the engine is written over this interface, and [binary64]
    below is its IEEE 754 double-precision instance. *)

Class Float := {
  float : Type;
  (** [float(x)] on a string; [ValueError] when the text is not a number. *)
  py_float : string → result float;
  (** [sum(v)] on a list of floats. *)
  py_sum : list float → float;
  (** [x / n] for a float [x] and a positive integer [n]. *)
  float_div_int : float → nat → float;
  (** [round(x, 2)]. *)
  py_round2 : float → float;
  (** [math.isfinite(x)]: neither an infinity nor a NaN. *)
  isfinite : float → bool;
}.

(** [x / n]: [ZeroDivisionError] when [n] is zero. *)
Definition py_truediv `{Float} (x : float) (n : nat) : result float :=
  match n with
  | O => Raise ZeroDivisionError
  | S _ => Ok (float_div_int x n)
  end.

(** ** The engine (source lines 48-135) *)

(** Lines 49-50: [[l.strip() for l in f if l.strip()]]. *)
Definition read_genes (f : list string) : list string :=
  strip <$> filter (λ l, strip l ≠ EmptyString) f.

(** Lines 62-66: one step of the loop over [enumerate(samples)], on the pair
    of [group_to_indices] and [group_order].  ([alter] on an absent key
    would do nothing where Python raises; the key is present here, the
    branch above has just inserted it if it was not.) *)
Definition assign_step (i : nat) (s : string)
    (st : gmap string (list nat) * list string)
  : gmap string (list nat) * list string :=
  let '(group_to_indices, group_order) := st in
  let '(group_to_indices, group_order) :=
    if decide (group_to_indices !! s = None)
    then (<[s := []]> group_to_indices, group_order ++ [s])
    else (group_to_indices, group_order) in
  (alter (λ idxs, idxs ++ [i]) s group_to_indices, group_order).

Fixpoint assign_loop (i : nat) (samples : list string)
    (st : gmap string (list nat) * list string)
  : gmap string (list nat) * list string :=
  match samples with
  | [] => st
  | s :: rest => assign_loop (S i) rest (assign_step i s st)
  end.

Definition assign_groups (samples : list string)
  : gmap string (list nat) * list string :=
  assign_loop 0 samples (∅, []).

(** Lines 71-76: the cells of one row, [parts[1:]], each through [float]
    under [try]/[except]. *)
Definition parse_cells `{Float} (cells : list string)
  : result (list (option float)) :=
  for_each cells
    (λ x vals,
       try_except (v ← py_float x; Ok (vals ++ [Some v]))
                  (Ok (vals ++ [None])))
    [].

(** Lines 67-79: the loop over the remaining lines of the matrix file [mf].
    The result is the store together with the lines left unread in [mf]:
    empty when the loop ran to the end of the file, the lines after the
    [break] otherwise. *)
Fixpoint read_rows `{Float} (gene_set : gset string) (delim : ascii)
    (mf : list string) (expression_data : gmap string (list (option float)))
  : result (gmap string (list (option float)) * list string) :=
  match mf with
  | [] => Ok (expression_data, [])
  | line :: mf =>
      let parts := split delim (strip line) in
      gene ← py_index parts 0;
      if decide (gene ∈ gene_set) then
        vals ← parse_cells (drop 1 parts);
        let expression_data := <[gene := vals]> expression_data in
        if decide (size expression_data = size gene_set)
        then Ok (expression_data, mf)
        else read_rows gene_set delim mf expression_data
      else read_rows gene_set delim mf expression_data
  end.

(** Lines 91-94: the first header whose lower-cased label contains both
    ["gene"] and ["id"]; [gene_col] keeps its initial 0 when the loop ends
    without a [break]. *)
Fixpoint find_gene_col (idx : nat) (annot_headers : list string) : nat :=
  match annot_headers with
  | [] => 0
  | h :: rest =>
      if str_in "gene" (lower h) && str_in "id" (lower h) then idx
      else find_gene_col (S idx) rest
  end.

(** Lines 95-98: one annotation line. *)
Definition annot_step (gene_col : nat) (annot_data : gmap string (list string))
    (line : string) : gmap string (list string) :=
  let parts := split (detect_delimiter line) (strip line) in
  if decide (gene_col < length parts)
  then <[parts !!! gene_col := parts]> annot_data
  else annot_data.

(** Lines 82-98: [(annot_headers, gene_col, annot_data)]; [annot_file] is
    [None] when no annotation file is given or found. *)
Definition read_annotations (annot_file : option (list string))
  : list string * nat * gmap string (list string) :=
  match annot_file with
  | None => ([], 0, ∅)
  | Some af =>
      let first := strip (readline af) in
      let sep := detect_delimiter first in
      let hdr := split sep first in
      let gene_col := find_gene_col 0 hdr in
      (hdr, gene_col, foldl (annot_step gene_col) ∅ (tail af))
  end.

(** Line 111: [[vals[i] for i in idxs if i < len(vals) and vals[i] is not
    None]]. *)
Definition present_values `{Float} (vals : list (option float))
    (idxs : list nat) : list float :=
  omap (λ i, if decide (i < length vals) then vals !!! i else None) idxs.

(** Lines 109-114: the loop over [group_order] for one gene, on the pair of
    [means] and [pts]. *)
Definition gene_means `{Float} (group_to_indices : gmap string (list nat))
    (group_order : list string) (vals : list (option float))
  : result (list (option float) * list (string * option float)) :=
  for_each group_order
    (λ s '(means, pts),
       idxs ← py_getitem group_to_indices s;
       let v := present_values vals idxs in
       m ← match v with
           | [] => Ok None
           | _ :: _ => q ← py_truediv (py_sum v) (length v);
                       Ok (Some (py_round2 q))
           end;
       Ok (means ++ [m], pts ++ [(s, m)]))
    ([], []).

(** Lines 101-117: [(line_series, heatmap_series)]. *)
Definition build_series `{Float} (group_to_indices : gmap string (list nat))
    (group_order gene_list : list string)
    (expression_data : gmap string (list (option float)))
  : result (list (string * list (option float))
            * list (string * list (string * option float))) :=
  '(line_series, heatmap_series) ←
    for_each gene_list
      (λ g '(line_series, heatmap_series),
         match expression_data !! g with
         | None => Ok (line_series, heatmap_series)
         | Some vals =>
             '(means, pts) ← gene_means group_to_indices group_order vals;
             Ok (line_series ++ [(g, means)], heatmap_series ++ [(g, pts)])
         end)
      ([], []);
  Ok (line_series, reverse heatmap_series).

(** Lines 128-132: the points of replicate slot [r] for one gene.  The
    three tests of line 131 guard the two indexings: [idxs !! r] is [Some]
    exactly when [r < len(idxs)], [vals !! i] is [Some] exactly when
    [i < len(vals)], and the value is [Some x] when it [is not None]. *)
Definition slot_points `{Float} (group_to_indices : gmap string (list nat))
    (group_order : list string) (vals : list (option float)) (r : nat)
  : result (list (string * float)) :=
  for_each group_order
    (λ s dpts,
       idxs ← py_getitem group_to_indices s;
       match idxs !! r with
       | Some i =>
           match vals !! i with
           | Some (Some x) => Ok (dpts ++ [(s, py_round2 x)])
           | _ => Ok dpts
           end
       | None => Ok dpts
       end)
    [].

(** Lines 126-134: the replicate series of one gene. *)
Definition gene_replicates `{Float} (group_to_indices : gmap string (list nat))
    (group_order : list string) (max_reps : nat) (vals : list (option float))
  : result (list (string * list (string * float))) :=
  for_each (seq 0 max_reps)
    (λ r ser,
       dpts ← slot_points group_to_indices group_order vals r;
       match dpts with
       | [] => Ok ser
       | _ :: _ => Ok (ser ++ [("Rep " +:+ pretty (r + 1), dpts)])
       end)
    [].

(** Line 120: [max(len(v) for v in group_to_indices.values())].  (The
    values come in the map's order, not in insertion order; a maximum does
    not depend on it.) *)
Definition max_group_size (group_to_indices : gmap string (list nat))
  : result nat :=
  py_max (length <$> (map_to_list group_to_indices).*2).

(** Lines 120-135: [dot_data]. *)
Definition build_replicates `{Float} (group_to_indices : gmap string (list nat))
    (group_order gene_list : list string)
    (expression_data : gmap string (list (option float)))
  : result (gmap string (list (string * list (string * float)))) :=
  max_reps ← max_group_size group_to_indices;
  for_each gene_list
    (λ g dot_data,
       match expression_data !! g with
       | None => Ok dot_data
       | Some vals =>
           ser ← gene_replicates group_to_indices group_order max_reps vals;
           Ok (<[g := ser]> dot_data)
       end)
    ∅.

(** What the engine hands to the renderer. *)
Record report `{Float} := Report {
  out_gene_list : list string;
  out_group_order : list string;
  out_group_to_indices : gmap string (list nat);
  out_expression_data : gmap string (list (option float));
  out_annot_headers : list string;
  out_gene_col : nat;
  out_annot_data : gmap string (list string);
  out_line_series : list (string * list (option float));
  out_heatmap_series : list (string * list (string * option float));
  out_dot_data : gmap string (list (string * list (string * float)));
}.

(** Lines 48-135 of [main], on the contents of the three files. *)
Definition main `{Float} (genes_file matrix_file : list string)
    (annot_file : option (list string)) : result report :=
  let gene_list := read_genes genes_file in
  let gene_set : gset string := list_to_set gene_list in
  let header := strip (readline matrix_file) in
  let delim := detect_delimiter header in
  let cols := split delim header in
  let samples := drop 1 cols in
  let '(group_to_indices, group_order) := assign_groups samples in
  '(expression_data, _) ← read_rows gene_set delim (tail matrix_file) ∅;
  let '(annot_headers, gene_col, annot_data) := read_annotations annot_file in
  '(line_series, heatmap_series) ←
    build_series group_to_indices group_order gene_list expression_data;
  dot_data ←
    build_replicates group_to_indices group_order gene_list expression_data;
  Ok (Report _ gene_list group_order group_to_indices expression_data
        annot_headers gene_col annot_data line_series heatmap_series dot_data).

(** ** IEEE 754 double precision: the instance of [Float]

    A double is a [spec_float] of precision 53 and maximal exponent 1024.
    [float_of_string] follows the grammar [float] accepts for a string and
    rounds the decimal value to the nearest double, ties to even. *)

Module Binary64.

Definition prec : Z := 53.
Definition emax : Z := 1024.

Definition isdigit (c : ascii) : bool :=
  let n := nat_of_ascii c in (48 <=? n)%nat && (n <=? 57)%nat.

Definition digit_value (c : ascii) : Z := Z.of_nat (nat_of_ascii c - 48).

(** Underscores are allowed between two digits only; they are removed
    before the number is read.  [prev] is the previous character. *)
Fixpoint remove_underscores (prev : ascii) (s : string) : option string :=
  match s with
  | EmptyString =>
      if Ascii.eqb prev "_" then None else Some EmptyString
  | String c rest =>
      if Ascii.eqb c "_" then
        if isdigit prev then remove_underscores c rest else None
      else if Ascii.eqb prev "_" && negb (isdigit c) then None
      else String c <$> remove_underscores c rest
  end.

(** The leading digits of [s], as the number they write after [acc], their
    count, and the rest of [s]. *)
Fixpoint read_digits (acc : Z) (n : nat) (s : string) : Z * nat * string :=
  match s with
  | String c rest =>
      if isdigit c then read_digits (10 * acc + digit_value c) (S n) rest
      else (acc, n, s)
  | EmptyString => (acc, n, s)
  end.

Definition read_sign (s : string) : bool * string :=
  match s with
  | String "-" rest => (true, rest)
  | String "+" rest => (false, rest)
  | _ => (false, s)
  end.

(** The double nearest to [m * 10 ^ e10], negated when [neg]. *)
Definition of_decimal (neg : bool) (m e10 : Z) : spec_float :=
  match m with
  | Zpos p =>
      if (0 <=? e10)%Z
      then binary_normalize prec emax (cond_Zopp neg (m * 10 ^ e10)) 0 false
      else SFdiv prec emax (S754_finite neg p 0)
             (S754_finite false (Z.to_pos (10 ^ (- e10))) 0)
  | _ => S754_zero neg
  end.

(** The exponent part: nothing, or [e] or [E], an optional sign and at
    least one digit, up to the end of the text. *)
Definition read_exponent (s : string) : option Z :=
  match s with
  | EmptyString => Some 0%Z
  | String c rest =>
      if Ascii.eqb c "e" || Ascii.eqb c "E" then
        let '(neg, rest) := read_sign rest in
        match read_digits 0 0 rest with
        | (_, O, _) => None
        | (e, S _, EmptyString) => Some (cond_Zopp neg e)
        | _ => None
        end
      else None
  end.

(** A decimal literal: digits, an optional point and digits, with at least
    one digit in all, then the exponent part. *)
Definition read_decimal (neg : bool) (s : string) : option spec_float :=
  let '(int_part, n_int, rest) := read_digits 0 0 s in
  let '(mantissa, n_frac, rest) :=
    match rest with
    | String "." rest' =>
        let '(m, n, rest'') := read_digits int_part 0 rest' in (m, n, rest'')
    | _ => (int_part, O, rest)
    end in
  match (n_int + n_frac)%nat with
  | O => None
  | S _ =>
      e ← read_exponent rest;
      Some (of_decimal neg mantissa (e - Z.of_nat n_frac))
  end.

(** [float(x)]: surrounding white space is dropped, then an optional sign
    and either one of [inf], [infinity], [nan] in any case, or a decimal
    literal. *)
Definition float_of_string (x : string) : result spec_float :=
  let s := strip x in
  let cleaned :=
    if contains "_" s then remove_underscores "000" s else Some s in
  match cleaned with
  | None => Raise ValueError
  | Some s =>
      let '(neg, body) := read_sign s in
      let word := lower body in
      if String.eqb word "inf" || String.eqb word "infinity"
      then Ok (S754_infinity neg)
      else if String.eqb word "nan" then Ok S754_nan
      else match read_decimal neg body with
           | Some v => Ok v
           | None => Raise ValueError
           end
  end.

Definition of_nat (n : nat) : spec_float :=
  binary_normalize prec emax (Z.of_nat n) 0 false.

(** [sum(v)]: the values added from the left to the start value 0. *)
Definition sum (v : list spec_float) : spec_float :=
  foldl (SFadd prec emax) (S754_zero false) v.

Definition div_int (x : spec_float) (n : nat) : spec_float :=
  SFdiv prec emax x (of_nat n).

(** [round(x, 2)]: the exact value of [x] rounded to a whole number of
    hundredths, ties to the even one, then the double nearest to that
    decimal.  A double with a non-negative exponent is a whole number
    and rounds to itself, as do the infinities and NaN. *)
Definition round2 (x : spec_float) : spec_float :=
  match x with
  | S754_finite s m e =>
      if (0 <=? e)%Z then x
      else
        let num := (Zpos m * 100)%Z in
        let den := (2 ^ (- e))%Z in
        let q := (num / den)%Z in
        let r := (num mod den)%Z in
        let n := if (2 * r <? den)%Z then q
                 else if (den <? 2 * r)%Z then (q + 1)%Z
                 else if Z.even q then q else (q + 1)%Z in
        match n with
        | Zpos p =>
            SFdiv prec emax (S754_finite s p 0) (S754_finite false 100 0)
        | _ => S754_zero s
        end
  | _ => x
  end.

Definition is_finite (x : spec_float) : bool :=
  match x with
  | S754_zero _ | S754_finite _ _ _ => true
  | S754_infinity _ | S754_nan => false
  end.

End Binary64.

#[global] Instance binary64 : Float := {|
  float := spec_float;
  py_float := Binary64.float_of_string;
  py_sum := Binary64.sum;
  float_div_int := Binary64.div_int;
  py_round2 := Binary64.round2;
  isfinite := Binary64.is_finite;
|}.

(** ** The specification's notions *)

(** The sample columns labelled [s], in column order. *)
Definition columns_of (s : string) (samples : list string) : list nat :=
  filter (λ i, samples !! i = Some s) (seq 0 (length samples)).

(** The distinct labels, each at the place of its first occurrence. *)
Fixpoint first_seen (samples : list string) : list string :=
  match samples with
  | [] => []
  | s :: rest => s :: filter (λ t, t ≠ s) (first_seen rest)
  end.

(** [sum(len(indices) for indices in group_to_indices.values())]. *)
Definition total_group_size (group_to_indices : gmap string (list nat)) : nat :=
  sum_list_with (λ kv, length kv.2) (map_to_list group_to_indices).

(** What a cell is recorded as: the value [float] gives, the missing marker
    when [float] raises. *)
Definition cell_value `{Float} (x : string) : option float :=
  match py_float x with
  | Ok v => Some v
  | Raise _ => None
  end.

(** A cell parses as a finite number. *)
Definition parses_as_finite `{Float} (x : string) : bool :=
  match py_float x with
  | Ok v => isfinite v
  | Raise _ => false
  end.

(** The gene identifier and the expression row of a data line. *)
Definition row_gene (delim : ascii) (line : string) : string :=
  default EmptyString (head (split delim (strip line))).

Definition row_values `{Float} (delim : ascii) (line : string)
  : list (option float) :=
  cell_value <$> drop 1 (split delim (strip line)).

(** The data lines whose gene identifier is [g], and the rows of the first
    and of the last of them. *)
Definition matching_rows (delim : ascii) (g : string) (lines : list string)
  : list string :=
  filter (λ line, row_gene delim line = g) lines.

Definition first_matching_row `{Float} (delim : ascii) (g : string)
    (lines : list string) : option (list (option float)) :=
  row_values delim <$> head (matching_rows delim g lines).

Definition last_matching_row `{Float} (delim : ascii) (g : string)
    (lines : list string) : option (list (option float)) :=
  row_values delim <$> last (matching_rows delim g lines).

(** The store the matrix loop ends with, and the number of data lines it
    has read by then. *)
Definition stored_rows `{Float} (gene_set : gset string) (delim : ascii)
    (mf : list string) : gmap string (list (option float)) :=
  match read_rows gene_set delim mf ∅ with
  | Ok (expression_data, _) => expression_data
  | Raise _ => ∅
  end.

Definition lines_read `{Float} (gene_set : gset string) (delim : ascii)
    (mf : list string) : nat :=
  match read_rows gene_set delim mf ∅ with
  | Ok (_, unread) => length mf - length unread
  | Raise _ => 0
  end.

(** The number of retained rows after the first [k] data lines: the
    distinct requested genes met on them. *)
Definition retained_after (gene_set : gset string) (delim : ascii)
    (mf : list string) (k : nat) : nat :=
  size (list_to_set (C := gset string)
          (filter (λ g, g ∈ gene_set) (row_gene delim <$> take k mf))).

(** Line [k] (from 1) is the first data line where the number of retained
    rows equals the size of the gene set. *)
Definition first_full_line (gene_set : gset string) (delim : ascii)
    (mf : list string) (k : nat) : Prop :=
  1 ≤ k ≤ length mf
  ∧ retained_after gene_set delim mf k = size gene_set
  ∧ ∀ j, 1 ≤ j < k → retained_after gene_set delim mf j ≠ size gene_set.

(** Reading stops at the first such line. *)
Definition stops_at_first_full `{Float} (gene_set : gset string)
    (delim : ascii) (mf : list string) : Prop :=
  ∀ k, first_full_line gene_set delim mf k →
       lines_read gene_set delim mf = k.

(** [needle] occurs in [s]. *)
Definition substring_of (needle s : string) : Prop :=
  ∃ pre post, s = pre +:+ needle +:+ post.

(** The label names the gene identifier: without regard to case, it
    contains both ["gene"] and ["id"]. *)
Definition names_gene_id (h : string) : Prop :=
  substring_of "gene" (lower h) ∧ substring_of "id" (lower h).

(** [col] is the gene-identifier column of the header: the first label,
    from the left, that names the gene identifier, column 0 when none
    does. *)
Definition gene_id_column (hdr : list string) (col : nat) : Prop :=
  (∃ h, hdr !! col = Some h ∧ names_gene_id h
        ∧ ∀ j h', j < col → hdr !! j = Some h' → ¬ names_gene_id h')
  ∨ (col = 0 ∧ ∀ h, h ∈ hdr → ¬ names_gene_id h).

(** The fields of an annotation line, split on the delimiter detected on
    that line. *)
Definition annot_parts (line : string) : list string :=
  split (detect_delimiter line) (strip line).

(** The rows of the annotation lines that have more than [gene_col] fields
    and the identifier [k] at [gene_col]. *)
Definition indexed_rows (gene_col : nat) (k : string) (lines : list string)
  : list (list string) :=
  filter (λ parts, parts !! gene_col = Some k) (annot_parts <$> lines).

(** The mean of the present values of a group: their sum over their
    count, rounded to two decimals; missing when there is none. *)
Definition mean_rule `{Float} (v : list float) : option float :=
  match v with
  | [] => None
  | _ :: _ => Some (py_round2 (float_div_int (py_sum v) (length v)))
  end.

(** The values of a row at the columns labelled [s], in column order: those
    within the row and not missing. *)
Definition column_values `{Float} (samples : list string) (s : string)
    (vals : list (option float)) : list float :=
  omap (λ i, mjoin (vals !! i)) (columns_of s samples).

(** The genes of the gene list that have an expression row. *)
Definition genes_with_data `{Float} (gene_list : list string)
    (expression_data : gmap string (list (option float))) : list string :=
  filter (λ g, is_Some (expression_data !! g)) gene_list.

(** The point of group [s] in replicate slot [r]: the group has a column at
    position [r], the column is within the row and its value is not
    missing. *)
Definition replicate_point `{Float} (samples : list string)
    (vals : list (option float)) (r : nat) (s : string)
  : option (string * float) :=
  i ← columns_of s samples !! r;
  x ← mjoin (vals !! i);
  Some (s, py_round2 x).

(** The series of replicate slot [r], none when the slot has no point. *)
Definition slot_series `{Float} (samples : list string)
    (vals : list (option float)) (r : nat)
  : option (string * list (string * float)) :=
  match omap (replicate_point samples vals r) (first_seen samples) with
  | [] => None
  | pts => Some ("Rep " +:+ pretty (r + 1), pts)
  end.

(** The series of a gene: for each slot below [max_reps] with at least one
    point, in increasing order, the slot's name and its points in group
    order. *)
Definition replicate_series `{Float} (samples : list string) (max_reps : nat)
    (vals : list (option float)) : list (string * list (string * float)) :=
  omap (slot_series samples vals) (seq 0 max_reps).

(** [n] is the largest group size. *)
Definition is_max_group_size (samples : list string) (n : nat) : Prop :=
  (∀ s, length (columns_of s samples) ≤ n)
  ∧ ∃ s, s ∈ samples ∧ length (columns_of s samples) = n.

(** What the loop of lines 62-66 has built after the samples [done]. *)
Definition groups_built (done : list string)
    (st : gmap string (list nat) * list string) : Prop :=
  (∀ s, st.1 !! s =
        if decide (s ∈ done) then Some (columns_of s done) else None)
  ∧ st.2 = first_seen done
  ∧ total_group_size st.1 = length done.

(** One accepted or skipped line, and the lines read without the test of
    line 78. *)
Definition store_step `{Float} (gene_set : gset string) (delim : ascii)
    (expression_data : gmap string (list (option float))) (line : string)
  : gmap string (list (option float)) :=
  if decide (row_gene delim line ∈ gene_set)
  then <[row_gene delim line := row_values delim line]> expression_data
  else expression_data.

Definition store_from `{Float} (gene_set : gset string) (delim : ascii)
    (expression_data : gmap string (list (option float)))
    (lines : list string) : gmap string (list (option float)) :=
  foldl (store_step gene_set delim) expression_data lines.

(** The loop breaks on line [i] (from 0) of [lines]. *)
Definition stop_from `{Float} (gene_set : gset string) (delim : ascii)
    (expression_data : gmap string (list (option float)))
    (lines : list string) (i : nat) : Prop :=
  ∃ line, lines !! i = Some line
          ∧ row_gene delim line ∈ gene_set
          ∧ size (store_from gene_set delim expression_data
                    (take (S i) lines)) = size gene_set.

(** The means and the heatmap points of one row, in group order. *)
Definition mean_row `{Float} (samples : list string)
    (vals : list (option float)) : list (option float) :=
  (λ s, mean_rule (column_values samples s vals)) <$> first_seen samples.

Definition point_row `{Float} (samples : list string)
    (vals : list (option float)) : list (string * option float) :=
  (λ s, (s, mean_rule (column_values samples s vals))) <$> first_seen samples.

(** ** The data table (source lines 200-228)

    The report is written chunk by chunk with [out.write]; [out] is the
    list of the chunks written so far.  The text an f-string gives a float,
    [str(x)], is the interpreter's. *)

Class FloatText `{Float} := {
  py_str : float → string;
}.

Definition nl : string := String "010"%char EmptyString.

Definition write (out : list string) (chunk : string) : list string :=
  out ++ [chunk].

(** Lines 202-204: one head cell for each replicate of each group. *)
Definition write_sample_heads (group_to_indices : gmap string (list nat))
    (group_order : list string) (out : list string) : result (list string) :=
  for_each group_order
    (λ s out,
       idxs ← py_getitem group_to_indices s;
       for_each (seq 0 (length idxs))
         (λ r out,
            Ok (write out ("<th>" +:+ s +:+ " (" +:+ pretty (r + 1) +:+ ")</th>")))
         out)
    out.

(** Lines 206-209 and 223-226: the loop over [enumerate(annot_headers)]
    from index [i], which skips the gene-identifier column and writes the
    chunk [cell i c] for every other one. *)
Fixpoint write_annot (i : nat) (annot_headers : list string) (gene_col : nat)
    (cell : nat → string → string) (out : list string) : list string :=
  match annot_headers with
  | [] => out
  | c :: rest =>
      write_annot (S i) rest gene_col cell
        (if decide (i = gene_col) then out else write out (cell i c))
  end.

(** Lines 216-220: the sample cells of one row, [row] being
    [expression_data[g]]. *)
Definition write_sample_cells `{FloatText}
    (group_to_indices : gmap string (list nat)) (group_order : list string)
    (row : list (option float)) (out : list string) : result (list string) :=
  for_each group_order
    (λ s out,
       idxs ← py_getitem group_to_indices s;
       for_each idxs
         (λ idx out,
            let val := if decide (idx < length row) then row !!! idx else None in
            let cell := match val with
                        | Some x => py_str (py_round2 x)
                        | None => EmptyString
                        end in
            Ok (write out ("<td>" +:+ cell +:+ "</td>")))
         out)
    out.

(** Lines 222-226: the annotation cell of column [i], [ann] being
    [annot_data.get(g, [])]. *)
Definition annot_td (ann : list string) (i : nat) (c : string) : string :=
  "<td>" +:+ (if decide (i < length ann) then ann !!! i else EmptyString)
  +:+ "</td>".

(** Lines 200-228. *)
Definition write_table `{FloatText}
    (group_to_indices : gmap string (list nat))
    (group_order gene_list : list string)
    (expression_data : gmap string (list (option float)))
    (annot_headers : list string) (gene_col : nat)
    (annot_data : gmap string (list string)) (out : list string)
  : result (list string) :=
  let out := write out ("<thead><tr>" +:+ nl) in
  let out := write out ("<th>Gene ID</th>" +:+ nl) in
  out ← write_sample_heads group_to_indices group_order out;
  let out :=
    match annot_headers with
    | [] => out
    | _ :: _ =>
        write_annot 0 annot_headers gene_col
          (λ _ c, "<th>" +:+ c +:+ "</th>") out
    end in
  let out := write out ("</tr></thead><tbody>" +:+ nl) in
  out ← for_each gene_list
          (λ g out,
             match expression_data !! g with
             | None => Ok out
             | Some row =>
                 let out := write out "<tr>" in
                 let out := write out ("<td>" +:+ g +:+ "</td>") in
                 out ← write_sample_cells group_to_indices group_order row out;
                 let out :=
                   match annot_headers with
                   | [] => out
                   | _ :: _ =>
                       write_annot 0 annot_headers gene_col
                         (annot_td (default [] (annot_data !! g))) out
                   end in
                 Ok (write out ("</tr>" +:+ nl))
             end)
          out;
  Ok (write out ("</tbody></table>" +:+ nl)).

(** ** Further notions *)

(** The text consists of white space only. *)
Definition whitespace (w : string) : Prop :=
  forallb isspace (chars w) = true.

(** [sep.join(fields)]. *)
Fixpoint join (sep : ascii) (fields : list string) : string :=
  match fields with
  | [] => EmptyString
  | [field] => field
  | field :: rest => field +:+ String sep (join sep rest)
  end.

(** The sample columns in the order of the table: group after group, in
    group order, the columns of a group in column order. *)
Definition table_columns (samples : list string) : list nat :=
  concat ((λ s, columns_of s samples) <$> first_seen samples).

(** The labels of the sample head cells. *)
Definition sample_heads (samples : list string) : list string :=
  concat ((λ s, (λ r, s +:+ " (" +:+ pretty (r + 1) +:+ ")")
                  <$> seq 0 (length (columns_of s samples)))
            <$> first_seen samples).

(** The text of the table cell of sample column [idx]. *)
Definition sample_cell `{FloatText} (row : list (option float)) (idx : nat)
  : string :=
  match mjoin (row !! idx) with
  | Some x => py_str (py_round2 x)
  | None => EmptyString
  end.

(** The fields of an annotation row under the header: one for each header
    column, empty beyond the end of the row. *)
Definition padded (annot_headers ann : list string) : list string :=
  (λ i, default EmptyString (ann !! i)) <$> seq 0 (length annot_headers).

(** The cells of the head row after ["Gene ID"] and of the row of gene [g]
    after the gene identifier. *)
Definition head_cells (samples annot_headers : list string) (gene_col : nat)
  : list string :=
  sample_heads samples ++ delete gene_col annot_headers.

Definition body_cells `{FloatText} (samples annot_headers : list string)
    (gene_col : nat) (annot_data : gmap string (list string))
    (g : string) (row : list (option float)) : list string :=
  (sample_cell row <$> table_columns samples)
  ++ delete gene_col (padded annot_headers (default [] (annot_data !! g))).

(** The chunks of the table with the given head and body cells. *)
Definition th (c : string) : string := "<th>" +:+ c +:+ "</th>".
Definition td (c : string) : string := "<td>" +:+ c +:+ "</td>".

Definition render_row (g : string) (cells : list string) : list string :=
  ["<tr>"; td g] ++ (td <$> cells) ++ ["</tr>" +:+ nl].

Definition render_table (head : list string)
    (body : list (string * list string)) : list string :=
  ["<thead><tr>" +:+ nl; "<th>Gene ID</th>" +:+ nl]
  ++ (th <$> head)
  ++ ["</tr></thead><tbody>" +:+ nl]
  ++ concat ((λ gr, render_row gr.1 gr.2) <$> body)
  ++ ["</tbody></table>" +:+ nl].

(** * Properties *)

(** ** Lists *)

Lemma filter_ext_elem {A} (P Q : A → Prop)
    `{!∀ x, Decision (P x), !∀ x, Decision (Q x)} (l : list A) :
  (∀ x, x ∈ l → P x ↔ Q x) → filter P l = filter Q l.
Proof.
  induction l as [|a l IH]; intros HPQ; [done|].
  rewrite !filter_cons.
  rewrite IH by (intros x Hx; apply HPQ; by apply list_elem_of_further).
  pose proof (HPQ a (list_elem_of_here _ _)) as Ha.
  destruct (decide (P a)), (decide (Q a)); naive_solver.
Qed.

Lemma filter_none {A} (P : A → Prop) `{!∀ x, Decision (P x)} (l : list A) :
  (∀ x, x ∈ l → ¬ P x) → filter P l = [].
Proof.
  induction l as [|a l IH]; intros HP; [done|].
  rewrite filter_cons, decide_False by (apply HP; apply list_elem_of_here).
  apply IH. intros x Hx. apply HP. by apply list_elem_of_further.
Qed.

(** ** Group assignment *)

Lemma columns_of_snoc s samples t :
  columns_of s (samples ++ [t]) =
  columns_of s samples ++ (if decide (t = s) then [length samples] else []).
Proof.
  unfold columns_of. rewrite length_app. simpl.
  rewrite Nat.add_1_r, seq_S, filter_app. simpl. f_equal.
  - apply filter_ext_elem. intros i Hi.
    apply elem_of_seq in Hi. rewrite lookup_app_l by lia. done.
  - rewrite filter_cons, filter_nil.
    rewrite list_lookup_middle by done.
    destruct (decide (t = s)) as [->|Hne].
    + by rewrite decide_True.
    + rewrite decide_False; [done | congruence].
Qed.

Lemma first_seen_elem s samples : s ∈ first_seen samples ↔ s ∈ samples.
Proof.
  induction samples as [|t rest IH]; simpl; [done|].
  rewrite !elem_of_cons, list_elem_of_filter, IH.
  destruct (decide (s = t)); naive_solver.
Qed.

Lemma first_seen_snoc samples t :
  first_seen (samples ++ [t]) =
  if decide (t ∈ samples) then first_seen samples else first_seen samples ++ [t].
Proof.
  induction samples as [|a rest IH]; simpl.
  - done.
  - rewrite IH. destruct (decide (t = a)) as [->|Hne].
    + rewrite (decide_True (P := a ∈ a :: rest)) by set_solver.
      destruct (decide (a ∈ rest)); [done|].
      rewrite filter_app, filter_cons, filter_nil.
      rewrite decide_False by (intros H; by apply H).
      by rewrite app_nil_r.
    + destruct (decide (t ∈ rest)) as [Hin|Hnin].
      * rewrite decide_True by set_solver. done.
      * rewrite decide_False by set_solver.
        rewrite filter_app, filter_cons, filter_nil.
        by rewrite decide_True.
Qed.

Lemma first_seen_NoDup samples : NoDup (first_seen samples).
Proof.
  induction samples as [|t rest IH]; simpl; [constructor|].
  constructor.
  - rewrite list_elem_of_filter. naive_solver.
  - by apply NoDup_filter.
Qed.

Lemma total_group_size_insert m s (idxs : list nat) :
  m !! s = None →
  total_group_size (<[s := idxs]> m) = length idxs + total_group_size m.
Proof.
  intros Hs. unfold total_group_size.
  by rewrite (map_to_list_insert m s idxs Hs).
Qed.

Lemma total_group_size_alter m s (idxs : list nat) f :
  m !! s = Some idxs →
  total_group_size (alter f s m) + length idxs =
  total_group_size m + length (f idxs).
Proof.
  intros Hs.
  assert (Hm : m = <[s := idxs]> (delete s m)).
  { by rewrite insert_delete_id. }
  rewrite Hm at 1 2. rewrite alter_insert_eq.
  rewrite !total_group_size_insert by apply lookup_delete_eq. lia.
Qed.

Lemma assign_step_built done s st :
  groups_built done st →
  groups_built (done ++ [s]) (assign_step (length done) s st).
Proof.
  destruct st as [m order]. intros (Hm & Ho & Hsz). simpl in *.
  unfold assign_step.
  pose proof (Hm s) as Hs.
  destruct (decide (m !! s = None)) as [Hnone|Hsome].
  - assert (Hnin : s ∉ done).
    { intros Hin. rewrite decide_True in Hs by done. congruence. }
    split; [|split]; simpl.
    + intros t. rewrite columns_of_snoc.
      destruct (decide (s = t)) as [<-|Hne].
      * rewrite lookup_alter_eq, lookup_insert_eq. simpl.
        rewrite decide_True by set_solver.
        f_equal. unfold columns_of at 1.
        rewrite filter_none; [done|].
        intros i Hi Heq.
        apply Hnin. by eapply list_elem_of_lookup_2.
      * rewrite lookup_alter_ne, lookup_insert_ne by done.
        rewrite Hm, app_nil_r.
        destruct (decide (t ∈ done)).
        -- by rewrite decide_True by set_solver.
        -- by rewrite decide_False by set_solver.
    + rewrite first_seen_snoc, decide_False by done. by rewrite Ho.
    + rewrite length_app. simpl.
      pose proof (total_group_size_alter (<[s := []]> m) s []
                    (λ idxs, idxs ++ [length done])
                    (lookup_insert_eq _ _ _)) as Ha.
      rewrite total_group_size_insert in Ha by done.
      simpl in Ha. lia.
  - assert (Hin : s ∈ done).
    { destruct (decide (s ∈ done)); [done | congruence]. }
    rewrite decide_True in Hs by done.
    split; [|split]; simpl.
    + intros t. rewrite columns_of_snoc.
      destruct (decide (s = t)) as [<-|Hne].
      * rewrite lookup_alter_eq, Hs. simpl.
        by rewrite decide_True by set_solver.
      * rewrite lookup_alter_ne by done. rewrite Hm, app_nil_r.
        destruct (decide (t ∈ done)).
        -- by rewrite decide_True by set_solver.
        -- by rewrite decide_False by set_solver.
    + rewrite first_seen_snoc, decide_True by done. done.
    + rewrite length_app. simpl.
      pose proof (total_group_size_alter m s _
                    (λ idxs, idxs ++ [length done]) Hs) as Ha.
      cbv beta in Ha. rewrite length_app in Ha. simpl in Ha. lia.
Qed.

Lemma assign_loop_built done samples st :
  groups_built done st →
  groups_built (done ++ samples) (assign_loop (length done) samples st).
Proof.
  revert done st. induction samples as [|s rest IH]; intros done st Hst; simpl.
  - by rewrite app_nil_r.
  - rewrite (cons_middle s done rest), app_assoc.
    replace (S (length done)) with (length (done ++ [s]))
      by (rewrite length_app; simpl; lia).
    apply IH. by apply assign_step_built.
Qed.

Lemma assign_groups_built samples : groups_built samples (assign_groups samples).
Proof.
  apply (assign_loop_built [] samples (∅, [])).
  split; [|split]; [|done|done].
  intros s. cbn [fst]. rewrite lookup_empty.
  case_decide as Hin; [by apply not_elem_of_nil in Hin | done].
Qed.

Lemma columns_of_elem s samples i :
  i ∈ columns_of s samples ↔ samples !! i = Some s.
Proof.
  unfold columns_of. rewrite list_elem_of_filter, elem_of_seq. split.
  - by intros [? _].
  - intros Hi. split; [done|]. apply lookup_lt_Some in Hi. lia.
Qed.

Lemma filter_seq_sorted (P : nat → Prop) `{!∀ i, Decision (P i)} j n :
  StronglySorted lt (filter P (seq j n)).
Proof.
  revert j. induction n as [|n IH]; intros j; simpl; [constructor|].
  rewrite filter_cons. destruct (decide (P j)); [|apply IH].
  constructor; [apply IH|].
  apply Forall_forall. intros i Hi.
  apply list_elem_of_filter in Hi as [_ Hi]. apply elem_of_seq in Hi. lia.
Qed.

(** C6. The group assignment partitions the sample columns: every sample
    column index, from 0 to the number of header columns minus two, is in
    the index list of exactly one group (the one of its own label); the
    index list of a group is the columns of its label in column order,
    without repetition; the group sizes add up to the number of header
    columns minus one; and [group_order] is the distinct labels in
    first-seen order, one for each group. *)
Theorem group_assignment_partition (cols : list string) :
  let samples := drop 1 cols in
  let group_to_indices := (assign_groups samples).1 in
  let group_order := (assign_groups samples).2 in
  (∀ i, i < length cols - 1 →
     ∃ s idxs,
       samples !! i = Some s ∧
       group_to_indices !! s = Some idxs ∧ i ∈ idxs ∧
       ∀ s' idxs', group_to_indices !! s' = Some idxs' → i ∈ idxs' → s' = s)
  ∧ (∀ s idxs, group_to_indices !! s = Some idxs →
       idxs = columns_of s samples ∧ NoDup idxs ∧ StronglySorted lt idxs
       ∧ ∀ i, i ∈ idxs → i < length cols - 1)
  ∧ total_group_size group_to_indices = length cols - 1
  ∧ group_order = first_seen samples
  ∧ NoDup group_order
  ∧ (∀ s, s ∈ group_order ↔ s ∈ samples)
  ∧ (∀ s, s ∈ group_order ↔ is_Some (group_to_indices !! s)).
Proof.
  intros samples group_to_indices group_order.
  destruct (assign_groups_built samples) as (Hm & Ho & Hsz).
  fold group_to_indices in Hm, Hsz. fold group_order in Ho.
  assert (Hlen : length samples = length cols - 1).
  { unfold samples. by rewrite length_drop. }
  assert (Hgroup : ∀ s idxs, group_to_indices !! s = Some idxs →
                             s ∈ samples ∧ idxs = columns_of s samples).
  { intros s idxs Hs. rewrite Hm in Hs.
    destruct (decide (s ∈ samples)); [|done]. by inversion Hs. }
  split_and!.
  - intros i Hi.
    destruct (lookup_lt_is_Some_2 samples i) as [s Hs]; [lia|].
    exists s, (columns_of s samples). split_and!; [done| | |].
    + rewrite Hm, decide_True; [done|]. by eapply list_elem_of_lookup_2.
    + by apply columns_of_elem.
    + intros s' idxs' Hs' Hin. apply Hgroup in Hs' as [_ ->].
      apply columns_of_elem in Hin. congruence.
  - intros s idxs Hs. apply Hgroup in Hs as [_ ->]. split_and!.
    + done.
    + apply NoDup_filter, NoDup_seq.
    + apply filter_seq_sorted.
    + intros i Hin. apply columns_of_elem, lookup_lt_Some in Hin. lia.
  - by rewrite Hsz.
  - done.
  - rewrite Ho. apply first_seen_NoDup.
  - intros s. rewrite Ho. apply first_seen_elem.
  - intros s. rewrite Ho, first_seen_elem. split.
    + intros Hs. rewrite Hm, decide_True; done.
    + intros [idxs Hs]. by apply Hgroup in Hs as [? _].
Qed.

(** ** Delimiter detection *)

Lemma contains_spec c line : contains c line = true ↔ c ∈ chars line.
Proof.
  induction line as [|a rest IH]; simpl.
  - split; [discriminate | intros H; inversion H].
  - destruct (Ascii.eqb_spec a c) as [->|Hne].
    + split; [intros _; apply list_elem_of_here | done].
    + rewrite IH. split.
      * intros H. by apply list_elem_of_further.
      * intros H. inversion H; subst; [congruence | done].
Qed.

Lemma count_spec c line : count c line = occurrences c line.
Proof.
  unfold occurrences. induction line as [|a rest IH]; simpl; [done|].
  rewrite filter_cons. destruct (Ascii.eqb_spec a c) as [->|Hne].
  - rewrite decide_True by done. simpl. by rewrite IH.
  - rewrite decide_False by done. simpl. by rewrite IH.
Qed.

(** C7. [detect_delimiter] is total: on every line, the empty one included,
    it returns one of the three delimiters; it is a function of the line
    alone, so a second call on the same line gives the same delimiter; and
    its value is the one the priority rule gives: tab when the line has a
    tab and at least as many tabs as commas, else semicolon when one is
    present, else comma when one is present, else tab. *)
Theorem detect_delimiter_rule (line : string) :
  detect_delimiter line = delimiter_rule line
  ∧ detect_delimiter line ∈ [tab; semicolon; comma]
  ∧ detect_delimiter EmptyString = tab
  ∧ (∀ again : string, again = line →
       detect_delimiter again = detect_delimiter line).
Proof.
  split; [|split; [|split]].
  - unfold detect_delimiter, delimiter_rule.
    destruct (contains tab line) eqn:Ht; simpl.
    + apply contains_spec in Ht. rewrite !count_spec.
      destruct (Nat.leb_spec (occurrences comma line) (occurrences tab line)).
      * by rewrite decide_True.
      * rewrite decide_False by lia.
        destruct (contains semicolon line) eqn:Hs.
        { apply contains_spec in Hs. by rewrite decide_True. }
        rewrite decide_False
          by (rewrite <- contains_spec; congruence).
        destruct (contains comma line) eqn:Hc.
        { apply contains_spec in Hc. by rewrite decide_True. }
        by rewrite decide_False by (rewrite <- contains_spec; congruence).
    + rewrite decide_False
        by (intros [H _]; apply contains_spec in H; congruence).
      destruct (contains semicolon line) eqn:Hs.
      { apply contains_spec in Hs. by rewrite decide_True. }
      rewrite decide_False by (rewrite <- contains_spec; congruence).
      destruct (contains comma line) eqn:Hc.
      { apply contains_spec in Hc. by rewrite decide_True. }
      by rewrite decide_False by (rewrite <- contains_spec; congruence).
  - unfold detect_delimiter.
    repeat match goal with |- context [if ?b then _ else _] => destruct b end;
      set_solver.
  - reflexivity.
  - by intros again ->.
Qed.

(** ** Reading the matrix rows *)

Section rows.
Context `{Float}.

Lemma split_cons sep s : ∃ field fields, split sep s = field :: fields.
Proof.
  destruct s as [|a rest]; simpl; [by eauto|].
  destruct (Ascii.eqb a sep); [by eauto|].
  destruct (split sep rest); eauto.
Qed.

Lemma py_index_split sep s :
  py_index (split sep s) 0 = Ok (default EmptyString (head (split sep s))).
Proof. by destruct (split_cons sep s) as (field & fields & ->). Qed.

Lemma parse_cells_from cells vals :
  for_each cells
    (λ x vals,
       try_except (v ← py_float x; Ok (vals ++ [Some v]))
                  (Ok (vals ++ [None])))
    vals
  = Ok (vals ++ (cell_value <$> cells)).
Proof.
  revert vals. induction cells as [|x cells IH]; intros vals; simpl.
  - by rewrite app_nil_r.
  - unfold cell_value at 1.
    destruct (py_float x) as [v|e]; simpl;
      rewrite IH, <- app_assoc; done.
Qed.

Lemma parse_cells_ok cells : parse_cells cells = Ok (cell_value <$> cells).
Proof. unfold parse_cells. by rewrite parse_cells_from. Qed.

Variable gene_set : gset string.
Variable delim : ascii.

Lemma read_rows_cons line mf data :
  read_rows gene_set delim (line :: mf) data =
  if decide (row_gene delim line ∈ gene_set) then
    if decide (size (store_step gene_set delim data line) = size gene_set)
    then Ok (store_step gene_set delim data line, mf)
    else read_rows gene_set delim mf (store_step gene_set delim data line)
  else read_rows gene_set delim mf data.
Proof.
  simpl. rewrite py_index_split. simpl. fold (row_gene delim line).
  unfold store_step.
  destruct (decide (row_gene delim line ∈ gene_set)); [|done].
  rewrite parse_cells_ok. simpl. done.
Qed.

Lemma stop_from_cons data line lines i :
  stop_from gene_set delim data (line :: lines) (S i) ↔
  stop_from gene_set delim (store_step gene_set delim data line) lines i.
Proof. unfold stop_from. simpl. done. Qed.

(** The loop reads [n] lines: it ends with the store of these lines, it
    did not break before the last of them, and it broke on the last one
    unless it reached the end of the file. *)
Lemma read_rows_reads mf data :
  ∃ n, n ≤ length mf
       ∧ read_rows gene_set delim mf data =
           Ok (store_from gene_set delim data (take n mf), drop n mf)
       ∧ (∀ i, S i < n → ¬ stop_from gene_set delim data mf i)
       ∧ (n < length mf → ∃ i, n = S i ∧ stop_from gene_set delim data mf i).
Proof.
  revert data. induction mf as [|line mf IH]; intros data.
  - exists 0. split_and!; [done|done|intros; lia|simpl; lia].
  - rewrite read_rows_cons.
    destruct (decide (row_gene delim line ∈ gene_set)) as [Hin|Hnin].
    + destruct (decide (size (store_step gene_set delim data line)
                        = size gene_set)) as [Hfull|Hnot].
      * exists 1. split_and!; [simpl; lia|done|intros; lia|].
        intros _. exists 0. split; [done|]. by exists line.
      * destruct (IH (store_step gene_set delim data line))
          as (n & Hn & Hrun & Hbefore & Hstop).
        exists (S n). split_and!; [simpl; lia|done| |].
        -- intros [|i] Hi.
           ++ intros (l & Hl & _ & Hsz). simpl in Hl. by simplify_eq.
           ++ rewrite stop_from_cons. apply Hbefore. lia.
        -- intros Hlt. destruct Hstop as (i & -> & Hi); [simpl in Hlt; lia|].
           exists (S i). split; [done|]. by apply stop_from_cons.
    + destruct (IH data) as (n & Hn & Hrun & Hbefore & Hstop).
      assert (Hstep : store_step gene_set delim data line = data).
      { unfold store_step. by rewrite decide_False. }
      exists (S n). split_and!; [simpl; lia| | |].
      * rewrite Hrun. simpl. unfold store_from. simpl. by rewrite Hstep.
      * intros [|i] Hi.
        -- intros (l & Hl & Hacc & _). simpl in Hl. by simplify_eq.
        -- rewrite stop_from_cons, Hstep. apply Hbefore. lia.
      * intros Hlt. destruct Hstop as (i & -> & Hi); [simpl in Hlt; lia|].
        exists (S i). split; [done|]. rewrite stop_from_cons. by rewrite Hstep.
Qed.

Lemma store_from_snoc data lines line :
  store_from gene_set delim data (lines ++ [line]) =
  store_step gene_set delim (store_from gene_set delim data lines) line.
Proof. unfold store_from. by rewrite foldl_app. Qed.

Lemma store_from_dom data lines :
  dom (store_from gene_set delim data lines) =
  dom data ∪ list_to_set (filter (λ g, g ∈ gene_set) (row_gene delim <$> lines)).
Proof.
  revert data. induction lines as [|line lines IH]; intros data.
  - simpl. set_solver.
  - change (store_from gene_set delim data (line :: lines))
      with (store_from gene_set delim (store_step gene_set delim data line) lines).
    rewrite IH, fmap_cons, filter_cons. unfold store_step.
    destruct (decide (row_gene delim line ∈ gene_set)).
    + rewrite dom_insert_L. set_solver.
    + done.
Qed.

Lemma store_size_retained mf k :
  size (store_from gene_set delim ∅ (take k mf)) =
  retained_after gene_set delim mf k.
Proof.
  unfold retained_after. rewrite <- size_dom, store_from_dom, dom_empty_L.
  by rewrite (left_id_L ∅ (∪)).
Qed.

Lemma store_from_subseteq data lines :
  dom data ⊆ gene_set → dom (store_from gene_set delim data lines) ⊆ gene_set.
Proof.
  intros Hd. rewrite store_from_dom. intros g.
  rewrite elem_of_union, elem_of_list_to_set, list_elem_of_filter.
  intros [?|[? _]]; [by apply Hd | done].
Qed.

(** The row stored for a gene is the row of the last matching line. *)
Lemma store_from_lookup data lines g :
  store_from gene_set delim data lines !! g =
  match (if decide (g ∈ gene_set)
         then last_matching_row delim g lines else None) with
  | Some row => Some row
  | None => data !! g
  end.
Proof.
  revert data. induction lines as [|line lines IH]; intros data.
  - simpl. by destruct (decide (g ∈ gene_set)).
  - change (store_from gene_set delim data (line :: lines))
      with (store_from gene_set delim (store_step gene_set delim data line) lines).
    rewrite IH. unfold last_matching_row, matching_rows, store_step.
    rewrite filter_cons.
    destruct (decide (g ∈ gene_set)) as [Hg|Hg].
    + destruct (decide (row_gene delim line = g)) as [->|Hne].
      * rewrite decide_True by done. rewrite last_cons.
        destruct (last (filter _ lines)); simpl; [done|].
        by rewrite lookup_insert_eq.
      * destruct (last (filter _ lines)); simpl; [done|].
        destruct (decide (row_gene delim line ∈ gene_set)); [|done].
        by rewrite lookup_insert_ne.
    + destruct (decide (row_gene delim line ∈ gene_set)) as [Hin|]; [|done].
      rewrite lookup_insert_ne; [done|]. intros Heq. by rewrite Heq in Hin.
Qed.

Lemma stop_from_app data pre rest i :
  i < length pre →
  stop_from gene_set delim data (pre ++ rest) i ↔
  stop_from gene_set delim data pre i.
Proof.
  intros Hi. unfold stop_from.
  rewrite lookup_app_l by done. rewrite take_app_le by lia. done.
Qed.

(** A store as large as the gene set was reached by a line on which the
    loop breaks. *)
Lemma full_store_stops lines :
  gene_set ≠ ∅ →
  size (store_from gene_set delim ∅ lines) = size gene_set →
  ∃ i, i < length lines ∧ stop_from gene_set delim ∅ lines i.
Proof.
  intros Hne. induction lines as [|line lines IH] using rev_ind; intros Hsz.
  - simpl in Hsz. rewrite map_size_empty in Hsz.
    symmetry in Hsz. apply size_empty_inv in Hsz.
    by apply leibniz_equiv in Hsz.
  - rewrite length_app. simpl.
    destruct (decide (size (store_from gene_set delim ∅ lines)
                      = size gene_set)) as [Heq|Hneq].
    + destruct (IH Heq) as (i & Hi & Hstop).
      exists i. split; [lia|]. by apply stop_from_app.
    + exists (length lines). split; [lia|].
      exists line. rewrite list_lookup_middle by done.
      rewrite store_from_snoc in Hsz.
      assert (Hacc : row_gene delim line ∈ gene_set).
      { destruct (decide (row_gene delim line ∈ gene_set)) as [|Hn]; [done|].
        unfold store_step in Hsz. by rewrite decide_False in Hsz. }
      split_and!; [done|done|].
      rewrite take_app_ge by lia.
      replace (S (length lines) - length lines) with 1 by lia.
      simpl. by rewrite store_from_snoc.
Qed.

(** Once the loop breaks inside [pre], what follows [pre] is not read. *)
Lemma read_rows_after_stop pre rest data i :
  stop_from gene_set delim data pre i →
  ∃ out unread,
    read_rows gene_set delim pre data = Ok (out, unread)
    ∧ read_rows gene_set delim (pre ++ rest) data = Ok (out, unread ++ rest).
Proof.
  revert data i. induction pre as [|line pre IH]; intros data i Hstop.
  - destruct Hstop as (l & Hl & _). done.
  - rewrite <- app_comm_cons, !read_rows_cons.
    destruct i as [|i].
    + destruct Hstop as (l & Hl & Hacc & Hsz). simpl in Hl. simplify_eq.
      simpl in Hsz. rewrite ?take_0 in Hsz. simpl in Hsz.
      rewrite !decide_True by done. by eexists _, _.
    + apply stop_from_cons in Hstop.
      destruct (decide (row_gene delim line ∈ gene_set)) as [Hin|Hnin].
      * destruct (decide (size (store_step gene_set delim data line)
                          = size gene_set)); [by eexists _, _|].
        by eapply IH.
      * assert (Hstep : store_step gene_set delim data line = data).
        { unfold store_step. by rewrite decide_False. }
        rewrite Hstep in Hstop. by eapply IH.
Qed.

(** The run from the empty store. *)
Lemma rows_run mf :
  ∃ n, n ≤ length mf
       ∧ lines_read gene_set delim mf = n
       ∧ stored_rows gene_set delim mf =
           store_from gene_set delim ∅ (take n mf)
       ∧ read_rows gene_set delim mf ∅ =
           Ok (stored_rows gene_set delim mf,
               drop (lines_read gene_set delim mf) mf)
       ∧ (∀ i, S i < n → ¬ stop_from gene_set delim ∅ mf i)
       ∧ (n < length mf → ∃ i, n = S i ∧ stop_from gene_set delim ∅ mf i).
Proof.
  destruct (read_rows_reads mf ∅) as (n & Hn & Hrun & Hbefore & Hstop).
  exists n. unfold lines_read, stored_rows. rewrite Hrun.
  rewrite length_drop.
  replace (length mf - (length mf - n)) with n by lia.
  split_and!; done.
Qed.

End rows.

Lemma stored_rows_dom `{Float} (gene_set : gset string) delim mf :
  dom (stored_rows gene_set delim mf) ⊆ gene_set.
Proof.
  destruct (rows_run gene_set delim mf) as (n & _ & _ & -> & _).
  apply store_from_subseteq. by rewrite dom_empty_L.
Qed.

Lemma stored_rows_no_genes `{Float} delim mf : stored_rows ∅ delim mf = ∅.
Proof.
  apply dom_empty_iff_L. pose proof (stored_rows_dom ∅ delim mf). set_solver.
Qed.

Lemma first_full_line_stops `{Float} (gene_set : gset string) delim mf k :
  gene_set ≠ ∅ →
  first_full_line gene_set delim mf (S k) →
  stop_from gene_set delim ∅ mf k
  ∧ ∀ i, i < k → ¬ stop_from gene_set delim ∅ mf i.
Proof.
  intros Hne ([_ Hk] & Hfull & Hfirst). split.
  - destruct (lookup_lt_is_Some_2 mf k) as [line Hline]; [lia|].
    exists line. split_and!; [done| |by rewrite store_size_retained].
    destruct (decide (row_gene delim line ∈ gene_set)) as [|Hnin]; [done|].
    exfalso.
    rewrite <- store_size_retained in Hfull.
    rewrite (take_S_r _ _ _ Hline), store_from_snoc in Hfull.
    unfold store_step in Hfull. rewrite decide_False in Hfull by done.
    destruct k as [|k].
    + rewrite take_0 in Hfull. simpl in Hfull.
      rewrite map_size_empty in Hfull. symmetry in Hfull.
      apply size_empty_inv in Hfull. by apply leibniz_equiv in Hfull.
    + apply (Hfirst (S k)); [lia|]. by rewrite <- store_size_retained.
  - intros i Hi (line & _ & _ & Hsz).
    apply (Hfirst (S i)); [lia|]. by rewrite <- store_size_retained.
Qed.

Lemma main_rows `{Float} genes_file header mf mf' annot_file :
  stored_rows (list_to_set (read_genes genes_file))
    (detect_delimiter (strip header)) mf =
  stored_rows (list_to_set (read_genes genes_file))
    (detect_delimiter (strip header)) mf' →
  main genes_file (header :: mf) annot_file =
  main genes_file (header :: mf') annot_file.
Proof.
  intros Heq. unfold main. cbn [readline tail]. cbv zeta.
  destruct (rows_run (list_to_set (read_genes genes_file))
              (detect_delimiter (strip header)) mf)
    as (_ & _ & _ & _ & -> & _).
  destruct (rows_run (list_to_set (read_genes genes_file))
              (detect_delimiter (strip header)) mf')
    as (_ & _ & _ & _ & -> & _).
  rewrite Heq. done.
Qed.

(** ** The claims on the matrix reader *)

(** C1 (amended). When the same gene identifier is on several retained
    data rows, the row stored for the gene is the one of the last matching
    line among the lines read before reading stops: each matching line read
    overwrites the row stored before, and only the lines after the point
    where reading stops are ignored.  A gene outside the gene set has no
    row. *)
Theorem last_match_wins `{Float} (gene_set : gset string) (delim : ascii)
    (mf : list string) :
  let read := take (lines_read gene_set delim mf) mf in
  read_rows gene_set delim mf ∅ =
    Ok (stored_rows gene_set delim mf,
        drop (lines_read gene_set delim mf) mf)
  ∧ ∀ g, stored_rows gene_set delim mf !! g =
         if decide (g ∈ gene_set)
         then last_matching_row delim g read else None.
Proof.
  intros read. unfold read.
  destruct (rows_run gene_set delim mf) as (n & _ & -> & Hst & Hrun & _).
  split; [done|]. intros g.
  rewrite Hst, store_from_lookup, lookup_empty.
  destruct (decide (g ∈ gene_set)); [|done].
  by destruct (last_matching_row _ _ _).
Qed.

(** C2 (amended). The number of retained rows is at most the size of the
    gene set; when the gene set is not empty, reading stops at the first
    data line where the number of retained rows equals the size of the gene
    set, while with an empty gene set every line is read; and the lines
    after a point where the two numbers are equal have no effect on the
    store nor on anything [main] returns. *)
Theorem early_stop `{Float} (gene_set : gset string) (delim : ascii)
    (mf : list string) :
  read_rows gene_set delim mf ∅ =
    Ok (stored_rows gene_set delim mf,
        drop (lines_read gene_set delim mf) mf)
  ∧ size (stored_rows gene_set delim mf) ≤ size gene_set
  ∧ size (stored_rows gene_set delim mf) =
      retained_after gene_set delim mf (lines_read gene_set delim mf)
  ∧ (gene_set ≠ ∅ → stops_at_first_full gene_set delim mf)
  ∧ (gene_set = ∅ → lines_read gene_set delim mf = length mf)
  ∧ (∀ k extra,
       retained_after gene_set delim mf k = size gene_set →
       stored_rows gene_set delim (take k mf ++ extra) =
       stored_rows gene_set delim (take k mf))
  ∧ (∀ genes_file header annot_file k extra,
       gene_set = list_to_set (read_genes genes_file) →
       delim = detect_delimiter (strip header) →
       retained_after gene_set delim mf k = size gene_set →
       main genes_file (header :: take k mf ++ extra) annot_file =
       main genes_file (header :: take k mf) annot_file).
Proof.
  assert (Hfree : ∀ k extra,
             retained_after gene_set delim mf k = size gene_set →
             stored_rows gene_set delim (take k mf ++ extra) =
             stored_rows gene_set delim (take k mf)).
  { intros k extra Hfull.
    destruct (decide (gene_set = ∅)) as [->|Hne].
    { by rewrite !stored_rows_no_genes. }
    rewrite <- store_size_retained in Hfull.
    destruct (full_store_stops gene_set delim (take k mf) Hne Hfull)
      as (i & _ & Hstop).
    destruct (read_rows_after_stop gene_set delim (take k mf) extra ∅ i Hstop)
      as (out & unread & Hpre & Hall).
    unfold stored_rows. by rewrite Hpre, Hall. }
  destruct (rows_run gene_set delim mf)
    as (n & Hn & Hread & Hst & Hrun & Hbefore & Hstop).
  split_and!.
  - done.
  - rewrite <- !size_dom. apply subseteq_size, stored_rows_dom.
  - by rewrite Hread, Hst, store_size_retained.
  - intros Hne [|k] Hk.
    { destruct Hk as ([Hk _] & _). lia. }
    pose proof Hk as ([_ Hlen] & _).
    destruct (first_full_line_stops gene_set delim mf k Hne Hk)
      as [Hat Hnone].
    rewrite Hread.
    destruct (Nat.lt_trichotomy n (S k)) as [Hlt|[Heq|Hgt]]; [|done|].
    + destruct Hstop as (i & -> & Hi); [lia|].
      exfalso. apply (Hnone i); [lia | done].
    + exfalso. by apply (Hbefore k).
  - intros ->. rewrite Hread.
    destruct (decide (n < length mf)) as [Hlt|]; [|lia].
    destruct (Hstop Hlt) as (i & _ & line & _ & Hacc & _). set_solver.
  - done.
  - intros genes_file header annot_file k extra -> -> Hfull.
    apply main_rows. by apply Hfree.
Qed.

(** C9 (amended). Every cell of a row gets a value: the missing marker when
    [float] raises on it, the number [float] returns otherwise, whether
    finite or not; the row has one value for each cell; and neither the
    cells of a row nor the loop over the rows raise an exception, whatever
    the lines hold. *)
Theorem row_parsing_never_raises `{Float} (gene_set : gset string)
    (delim : ascii) (mf : list string)
    (expression_data : gmap string (list (option float))) :
  (∀ cells,
     parse_cells cells = Ok (cell_value <$> cells)
     ∧ length (cell_value <$> cells) = length cells)
  ∧ (∀ x, cell_value x = None ↔ ∃ e, py_float x = Raise e)
  ∧ (∀ x v, cell_value x = Some v ↔ py_float x = Ok v)
  ∧ (∀ line, ∃ gene cells,
       split delim (strip line) = gene :: cells
       ∧ py_index (split delim (strip line)) 0 = Ok gene
       ∧ row_values delim line = cell_value <$> cells)
  ∧ ∃ data unread,
      read_rows gene_set delim mf expression_data = Ok (data, unread).
Proof.
  split_and!.
  - intros cells. split; [apply parse_cells_ok | apply length_fmap].
  - intros x. unfold cell_value. destruct (py_float x); naive_solver.
  - intros x v. unfold cell_value. destruct (py_float x); naive_solver.
  - intros line. unfold row_values.
    destruct (split_cons delim (strip line)) as (gene & cells & ->).
    by exists gene, cells.
  - destruct (read_rows_reads gene_set delim mf expression_data)
      as (n & _ & -> & _). by eexists _, _.
Qed.

(** ** Annotations *)

Lemma startswith_spec needle s :
  startswith needle s = true ↔ ∃ post, s = needle +:+ post.
Proof.
  revert s. induction needle as [|a needle IH]; intros s; simpl.
  - split; [by exists s | done].
  - destruct s as [|b s].
    + split; [done | by intros [post ?]].
    + rewrite andb_true_iff, IH. split.
      * intros [Hab [post ->]]. apply Ascii.eqb_eq in Hab as ->. by exists post.
      * intros [post Heq]. injection Heq as -> ->.
        split; [apply Ascii.eqb_refl | by exists post].
Qed.

Lemma str_in_spec needle s : str_in needle s = true ↔ substring_of needle s.
Proof.
  unfold substring_of. induction s as [|b s IH].
  - simpl. rewrite orb_false_r, startswith_spec. split.
    + intros [post Heq]. by exists EmptyString, post.
    + intros ([|c pre] & post & Heq); [by exists post | done].
  - cbn [str_in]. rewrite orb_true_iff, startswith_spec, IH. split.
    + intros [[post Heq]|(pre & post & Heq)].
      * by exists EmptyString, post.
      * exists (String b pre), post. simpl. by rewrite Heq.
    + intros ([|c pre] & post & Heq).
      * left. by exists post.
      * right. injection Heq as -> ->. by exists pre, post.
Qed.

Lemma gene_id_test h :
  str_in "gene" (lower h) && str_in "id" (lower h) = true ↔ names_gene_id h.
Proof. unfold names_gene_id. by rewrite andb_true_iff, !str_in_spec. Qed.

Lemma find_gene_col_spec idx hdr :
  (∃ j h, find_gene_col idx hdr = idx + j
          ∧ hdr !! j = Some h ∧ names_gene_id h
          ∧ ∀ i h', i < j → hdr !! i = Some h' → ¬ names_gene_id h')
  ∨ (find_gene_col idx hdr = 0 ∧ ∀ h, h ∈ hdr → ¬ names_gene_id h).
Proof.
  revert idx. induction hdr as [|h hdr IH]; intros idx; simpl.
  - right. split; [done|]. by intros h ?%not_elem_of_nil.
  - destruct (str_in "gene" (lower h) && str_in "id" (lower h)) eqn:Htest.
    + left. exists 0, h. split_and!; [lia|done|by apply gene_id_test|].
      intros; lia.
    + assert (Hh : ¬ names_gene_id h).
      { rewrite <- gene_id_test. congruence. }
      destruct (IH (S idx)) as [(j & h' & -> & Hj & Hname & Hfirst)|[-> Hnone]].
      * left. exists (S j), h'. split_and!; [lia|done|done|].
        intros [|i] h'' Hi Hl; simpl in Hl; [by simplify_eq|].
        apply (Hfirst i); [lia|done].
      * right. split; [done|]. intros h' [->|Hin]%elem_of_cons; [done|].
        by apply Hnone.
Qed.

Lemma annot_rows_lookup gene_col annot_data lines k :
  foldl (annot_step gene_col) annot_data lines !! k =
  match last (indexed_rows gene_col k lines) with
  | Some parts => Some parts
  | None => annot_data !! k
  end.
Proof.
  revert annot_data. induction lines as [|line lines IH]; intros annot_data.
  - done.
  - simpl. rewrite IH. unfold indexed_rows. rewrite fmap_cons, filter_cons.
    fold (indexed_rows gene_col k lines).
    unfold annot_step. fold (annot_parts line).
    destruct (decide (annot_parts line !! gene_col = Some k)) as [Hk|Hk].
    + rewrite last_cons. destruct (last (indexed_rows gene_col k lines)); [done|].
      rewrite decide_True by (by eapply lookup_lt_Some).
      rewrite (list_lookup_total_correct _ _ _ Hk). by rewrite lookup_insert_eq.
    + destruct (last (indexed_rows gene_col k lines)); [done|].
      destruct (decide (gene_col < length (annot_parts line))) as [Hlt|]; [|done].
      rewrite lookup_insert_ne; [done|]. intros <-.
      apply Hk. by apply list_lookup_lookup_total_lt.
Qed.

(** C8. The gene-identifier column of an annotation file is the index of
    the first header field, from the left, whose label contains both
    ["gene"] and ["id"] without regard to case, and 0 when no label does.
    A data row with more fields than that index is entered under its value
    at that index, a row with no more fields than the index leaves the
    index unchanged, and the entry of an identifier is the row of its last
    occurrence. *)
Theorem annotation_index (af : list string) :
  let annot_headers := (read_annotations (Some af)).1.1 in
  let gene_col := (read_annotations (Some af)).1.2 in
  let annot_data := (read_annotations (Some af)).2 in
  annot_headers =
    split (detect_delimiter (strip (readline af))) (strip (readline af))
  ∧ gene_id_column annot_headers gene_col
  ∧ (∀ data line,
       gene_col < length (annot_parts line) →
       ∃ k, annot_parts line !! gene_col = Some k
            ∧ annot_step gene_col data line = <[k := annot_parts line]> data)
  ∧ (∀ data line,
       length (annot_parts line) ≤ gene_col →
       annot_step gene_col data line = data)
  ∧ (∀ k, annot_data !! k = last (indexed_rows gene_col k (tail af))).
Proof.
  intros annot_headers gene_col annot_data. split_and!.
  - done.
  - unfold gene_col, annot_headers. simpl.
    destruct (find_gene_col_spec 0
                (split (detect_delimiter (strip (readline af)))
                   (strip (readline af))))
      as [(j & h & Hcol & Hj & Hname & Hfirst)|[Hcol Hnone]].
    + left. exists h. rewrite Hcol. simpl. split_and!; done.
    + right. split; done.
  - intros data line Hlt. exists (annot_parts line !!! gene_col). split.
    + by apply list_lookup_lookup_total_lt.
    + unfold annot_step. fold (annot_parts line). by rewrite decide_True.
  - intros data line Hle. unfold annot_step. fold (annot_parts line).
    rewrite decide_False; [done | lia].
  - intros k. unfold annot_data. simpl. rewrite annot_rows_lookup, lookup_empty.
    by destruct (last _).
Qed.

(** ** Aggregation *)

Section aggregation.
Context `{Float}.
Variable samples : list string.

Local Abbreviation group_to_indices := (assign_groups samples).1.
Local Abbreviation group_order := (assign_groups samples).2.

Lemma group_order_first_seen : group_order = first_seen samples.
Proof. by destruct (assign_groups_built samples) as (_ & ? & _). Qed.

Lemma group_lookup s :
  s ∈ samples → group_to_indices !! s = Some (columns_of s samples).
Proof.
  intros Hs. destruct (assign_groups_built samples) as (Hm & _).
  by rewrite Hm, decide_True.
Qed.

Lemma group_getitem s :
  s ∈ samples → py_getitem group_to_indices s = Ok (columns_of s samples).
Proof. intros Hs. unfold py_getitem. by rewrite group_lookup. Qed.

Lemma present_values_columns vals s :
  present_values vals (columns_of s samples) = column_values samples s vals.
Proof.
  unfold present_values, column_values. apply list_omap_ext.
  apply Forall2_same_length_lookup_2; [done|].
  intros i x y Hx Hy. simplify_eq.
  destruct (decide (x < length vals)) as [Hlt|Hge].
  - by rewrite (list_lookup_lookup_total_lt vals x Hlt).
  - by rewrite lookup_ge_None_2 by lia.
Qed.

(** The loop of lines 109-114, from any state, over labels of the header. *)
Lemma gene_means_from vals order means pts :
  (∀ s, s ∈ order → s ∈ samples) →
  for_each order
    (λ s '(means, pts),
       idxs ← py_getitem group_to_indices s;
       let v := present_values vals idxs in
       m ← match v with
           | [] => Ok None
           | _ :: _ => q ← py_truediv (py_sum v) (length v);
                       Ok (Some (py_round2 q))
           end;
       Ok (means ++ [m], pts ++ [(s, m)]))
    (means, pts)
  = Ok (means ++ ((λ s, mean_rule (column_values samples s vals)) <$> order),
        pts ++ ((λ s, (s, mean_rule (column_values samples s vals))) <$> order)).
Proof.
  revert means pts. induction order as [|s order IH]; intros means pts Hin.
  - simpl. by rewrite !app_nil_r.
  - cbn [for_each].
    rewrite group_getitem by (apply Hin; apply list_elem_of_here).
    cbn [mbind result_bind]. rewrite present_values_columns.
    destruct (column_values samples s vals) as [|x v] eqn:Hv.
    + cbn [mbind result_bind]. rewrite IH
        by (intros t Ht; apply Hin; by apply list_elem_of_further).
      rewrite !fmap_cons, Hv. simpl. by rewrite <- !app_assoc.
    + cbn [mbind result_bind py_truediv length]. rewrite IH
        by (intros t Ht; apply Hin; by apply list_elem_of_further).
      rewrite !fmap_cons, Hv. simpl. by rewrite <- !app_assoc.
Qed.

Lemma gene_means_ok vals :
  gene_means group_to_indices group_order vals =
  Ok ((λ s, mean_rule (column_values samples s vals)) <$> first_seen samples,
      (λ s, (s, mean_rule (column_values samples s vals))) <$> first_seen samples).
Proof.
  unfold gene_means. rewrite gene_means_from.
  - by rewrite group_order_first_seen.
  - intros s. rewrite group_order_first_seen. apply first_seen_elem.
Qed.

Variable expression_data : gmap string (list (option float)).

Lemma gene_loop_from gene_list line_series heatmap_series :
  for_each gene_list
    (λ g '(line_series, heatmap_series),
       match expression_data !! g with
       | None => Ok (line_series, heatmap_series)
       | Some vals =>
           '(means, pts) ← gene_means group_to_indices group_order vals;
           Ok (line_series ++ [(g, means)], heatmap_series ++ [(g, pts)])
       end)
    (line_series, heatmap_series)
  = Ok (line_series
          ++ omap (λ g, vals ← expression_data !! g; Some (g, mean_row samples vals))
               gene_list,
        heatmap_series
          ++ omap (λ g, vals ← expression_data !! g; Some (g, point_row samples vals))
               gene_list).
Proof.
  revert line_series heatmap_series.
  induction gene_list as [|g gene_list IH]; intros line_series heatmap_series.
  - simpl. by rewrite !app_nil_r.
  - cbn [for_each omap list_omap].
    destruct (expression_data !! g) as [vals|] eqn:Hg.
    + rewrite gene_means_ok. cbn [mbind result_bind option_bind].
      rewrite IH. fold (mean_row samples vals) (point_row samples vals).
      by rewrite <- !app_assoc.
    + cbn [mbind result_bind option_bind]. by rewrite IH.
Qed.

Lemma build_series_ok gene_list :
  build_series group_to_indices group_order gene_list expression_data =
  Ok (omap (λ g, vals ← expression_data !! g; Some (g, mean_row samples vals))
        gene_list,
      reverse (omap (λ g, vals ← expression_data !! g;
                          Some (g, point_row samples vals)) gene_list)).
Proof. unfold build_series. by rewrite gene_loop_from. Qed.

End aggregation.

Lemma omap_names `{Float} {B} (expression_data : gmap string (list (option float)))
    (f : list (option float) → B) (gene_list : list string) :
  (omap (λ g, vals ← expression_data !! g; Some (g, f vals)) gene_list).*1 =
  genes_with_data gene_list expression_data.
Proof.
  unfold genes_with_data.
  induction gene_list as [|g gene_list IH]; [done|].
  cbn [omap list_omap]. rewrite filter_cons.
  destruct (decide (is_Some (expression_data !! g))) as [[vals Hg]|Hg].
  - rewrite Hg. simpl. by rewrite <- IH.
  - apply eq_None_not_Some in Hg. rewrite Hg. exact IH.
Qed.

Lemma point_row_labels `{Float} samples vals :
  (point_row samples vals).*1 = first_seen samples.
Proof.
  unfold point_row. rewrite <- list_fmap_compose. simpl.
  by rewrite list_fmap_id.
Qed.

Lemma point_row_values `{Float} samples vals :
  (point_row samples vals).*2 = mean_row samples vals.
Proof. unfold point_row, mean_row. by rewrite <- list_fmap_compose. Qed.

(** C3. For a gene with an expression row and a group of [group_order], the
    mean of the group in the gene's series is the mean of the values of the
    row at the columns of the group that are within the row and not
    missing: their sum divided by their count, rounded to two decimals; it
    is the missing marker, not a number, exactly when there is no such
    value.  The series has one entry for each gene of [gene_list] with a
    row, and each entry has one mean for each group. *)
Theorem group_means `{Float} (samples gene_list : list string)
    (expression_data : gmap string (list (option float))) :
  let group_to_indices := (assign_groups samples).1 in
  let group_order := (assign_groups samples).2 in
  ∃ line_series heatmap_series,
    build_series group_to_indices group_order gene_list expression_data =
      Ok (line_series, heatmap_series)
    ∧ (∀ s, s ∈ group_order →
         group_to_indices !! s = Some (columns_of s samples))
    ∧ (∀ g vals, g ∈ gene_list → expression_data !! g = Some vals →
         ∃ means, (g, means) ∈ line_series)
    ∧ (∀ g means, (g, means) ∈ line_series →
         g ∈ gene_list
         ∧ ∃ vals, expression_data !! g = Some vals
             ∧ length means = length group_order
             ∧ ∀ k s, group_order !! k = Some s →
                 means !! k = Some (mean_rule (column_values samples s vals)))
    ∧ (∀ v, mean_rule v = None ↔ v = [])
    ∧ (∀ v, v ≠ [] →
         mean_rule v =
         Some (py_round2 (float_div_int (py_sum v) (length v)))).
Proof.
  intros group_to_indices group_order.
  unfold group_to_indices, group_order.
  rewrite build_series_ok. eexists _, _. split_and!; [done|..].
  - intros s. rewrite group_order_first_seen, first_seen_elem.
    apply group_lookup.
  - intros g vals Hg Hvals. exists (mean_row samples vals).
    apply list_elem_of_omap. exists g. split; [done|]. by rewrite Hvals.
  - intros g means (g' & Hg' & Hsome)%list_elem_of_omap.
    destruct (expression_data !! g') as [vals|] eqn:Hvals; [|done].
    simpl in Hsome. injection Hsome as -> <-.
    split; [done|]. exists vals. split_and!; [done| |].
    + unfold mean_row. by rewrite length_fmap, group_order_first_seen.
    + intros k s Hk. rewrite group_order_first_seen in Hk.
      unfold mean_row. by rewrite list_lookup_fmap, Hk.
  - intros [|x v]; simpl; split; done.
  - intros [|x v]; [done|]. done.
Qed.

(** C4. The genes of the heatmap series are the genes of [gene_list] that
    have an expression row, in the reverse of their order in [gene_list];
    the points of each gene are in group order, one for each group; and
    with the labels dropped the heatmap series is the reversed mean
    series, so the values of the points of a gene are its group means. *)
Theorem heatmap_reversed `{Float} (samples gene_list : list string)
    (expression_data : gmap string (list (option float))) :
  let group_to_indices := (assign_groups samples).1 in
  let group_order := (assign_groups samples).2 in
  ∃ line_series heatmap_series,
    build_series group_to_indices group_order gene_list expression_data =
      Ok (line_series, heatmap_series)
    ∧ line_series.*1 = genes_with_data gene_list expression_data
    ∧ heatmap_series.*1 = reverse (genes_with_data gene_list expression_data)
    ∧ Forall (λ entry, entry.2.*1 = group_order) heatmap_series
    ∧ (λ entry, (entry.1, entry.2.*2)) <$> heatmap_series =
        reverse line_series.
Proof.
  intros group_to_indices group_order.
  unfold group_to_indices, group_order.
  rewrite build_series_ok. eexists _, _. split_and!; [done|..].
  - apply omap_names.
  - by rewrite fmap_reverse, omap_names.
  - apply Forall_forall. intros [g pts] Hin. simpl.
    apply elem_of_reverse, list_elem_of_omap in Hin as (g' & _ & Hsome).
    destruct (expression_data !! g') as [vals|]; [|done].
    simpl in Hsome. injection Hsome as -> <-.
    by rewrite point_row_labels, group_order_first_seen.
  - rewrite fmap_reverse. f_equal. rewrite list_fmap_omap.
    apply list_omap_ext. apply Forall2_same_length_lookup_2; [done|].
    intros i g g' Hg Hg'. simplify_eq.
    destruct (expression_data !! g) as [vals|]; [|done].
    simpl. by rewrite point_row_values.
Qed.

(** ** Replicate series *)

Lemma foldl_max_spec (x : nat) (rest : list nat) :
  foldl Nat.max x rest ∈ x :: rest
  ∧ ∀ y, y ∈ x :: rest → y ≤ foldl Nat.max x rest.
Proof.
  revert x. induction rest as [|z rest IH]; intros x; simpl.
  - split; [apply list_elem_of_here|]. intros y Hy.
    apply list_elem_of_singleton in Hy. lia.
  - destruct (IH (x `max` z)) as [Hin Hle]. split.
    + apply elem_of_cons in Hin as [Heq|Hin].
      * rewrite Heq. destruct (Nat.max_spec x z) as [[_ ->]|[_ ->]].
        -- apply list_elem_of_further, list_elem_of_here.
        -- apply list_elem_of_here.
      * by do 2 apply list_elem_of_further.
    + intros y Hy.
      assert (Hm : x `max` z ≤ foldl Nat.max (x `max` z) rest).
      { apply Hle, list_elem_of_here. }
      apply elem_of_cons in Hy as [->|Hy]; [lia|].
      apply elem_of_cons in Hy as [->|Hy]; [lia|].
      apply Hle. by apply list_elem_of_further.
Qed.

Section replicates.
Context `{Float}.
Variable samples : list string.

Local Abbreviation group_to_indices := (assign_groups samples).1.
Local Abbreviation group_order := (assign_groups samples).2.

Lemma group_sizes n :
  n ∈ length <$> (map_to_list group_to_indices).*2 ↔
  ∃ s, s ∈ samples ∧ n = length (columns_of s samples).
Proof.
  destruct (assign_groups_built samples) as (Hm & _).
  rewrite list_elem_of_fmap. split.
  - intros (idxs & -> & Hin). apply list_elem_of_fmap in Hin as ([s idxs'] & -> & Hin).
    apply elem_of_map_to_list in Hin. rewrite Hm in Hin. simpl.
    destruct (decide (s ∈ samples)); [|done].
    exists s. split; [done|]. by simplify_eq.
  - intros (s & Hs & ->). exists (columns_of s samples). split; [done|].
    apply list_elem_of_fmap. exists (s, columns_of s samples). split; [done|].
    apply elem_of_map_to_list. by apply group_lookup.
Qed.

Lemma max_group_size_ok :
  samples ≠ [] →
  ∃ n, max_group_size group_to_indices = Ok n ∧ is_max_group_size samples n.
Proof.
  intros Hne. unfold max_group_size.
  destruct (length <$> (map_to_list group_to_indices).*2) as [|x rest] eqn:Hl.
  - assert (Hex : ∃ s0, s0 ∈ samples).
    { clear Hl. destruct samples as [|s0 rest0]; [done|].
      exists s0. apply list_elem_of_here. }
    destruct Hex as [s0 Hs0].
    assert (Hin : length (columns_of s0 samples) ∈ @nil nat).
    { rewrite <- Hl. apply group_sizes. by exists s0. }
    by apply not_elem_of_nil in Hin.
  - exists (foldl Nat.max x rest). split; [done|].
    destruct (foldl_max_spec x rest) as [Hin Hle]. rewrite <- Hl in Hin, Hle.
    split.
    + intros s. destruct (decide (s ∈ samples)) as [Hs|Hs].
      * apply Hle, group_sizes. by exists s.
      * unfold columns_of. rewrite filter_none; [simpl; lia|].
        intros i _ Hi. apply Hs. by eapply list_elem_of_lookup_2.
    + apply group_sizes in Hin as (s & Hs & Heq). by exists s.
Qed.

Lemma slot_points_from vals r order dpts :
  (∀ s, s ∈ order → s ∈ samples) →
  for_each order
    (λ s dpts,
       idxs ← py_getitem group_to_indices s;
       match idxs !! r with
       | Some i =>
           match vals !! i with
           | Some (Some x) => Ok (dpts ++ [(s, py_round2 x)])
           | _ => Ok dpts
           end
       | None => Ok dpts
       end)
    dpts
  = Ok (dpts ++ omap (replicate_point samples vals r) order).
Proof.
  revert dpts. induction order as [|s order IH]; intros dpts Hin.
  - simpl. by rewrite app_nil_r.
  - cbn [for_each omap list_omap].
    rewrite group_getitem by (apply Hin; apply list_elem_of_here).
    cbn [mbind result_bind]. unfold replicate_point at 1.
    assert (Hrest : ∀ t, t ∈ order → t ∈ samples).
    { intros t Ht. apply Hin. by apply list_elem_of_further. }
    destruct (columns_of s samples !! r) as [i|];
      cbn [mbind option_bind result_bind]; [|by rewrite IH].
    destruct (vals !! i) as [[x|]|];
      cbn [mjoin option_join mbind option_bind result_bind];
      rewrite IH by done; [|done..].
    by rewrite <- app_assoc.
Qed.

Lemma slot_points_ok vals r :
  slot_points group_to_indices group_order vals r =
  Ok (omap (replicate_point samples vals r) (first_seen samples)).
Proof.
  unfold slot_points. rewrite slot_points_from.
  - by rewrite group_order_first_seen.
  - intros s. rewrite group_order_first_seen. apply first_seen_elem.
Qed.

Lemma gene_replicates_from vals a n ser :
  for_each (seq a n)
    (λ r ser,
       dpts ← slot_points group_to_indices group_order vals r;
       match dpts with
       | [] => Ok ser
       | _ :: _ => Ok (ser ++ [("Rep " +:+ pretty (r + 1), dpts)])
       end)
    ser
  = Ok (ser ++ omap (slot_series samples vals) (seq a n)).
Proof.
  revert a ser. induction n as [|n IH]; intros a ser.
  - simpl. by rewrite app_nil_r.
  - cbn [seq for_each omap list_omap]. rewrite slot_points_ok.
    cbn [mbind result_bind]. unfold slot_series at 1.
    destruct (omap (replicate_point samples vals a) (first_seen samples))
      as [|pt pts].
    + cbn [mbind result_bind]. by rewrite IH.
    + cbn [mbind result_bind]. rewrite IH. by rewrite <- app_assoc.
Qed.

Lemma gene_replicates_ok vals max_reps :
  gene_replicates group_to_indices group_order max_reps vals =
  Ok (replicate_series samples max_reps vals).
Proof. unfold gene_replicates. by rewrite gene_replicates_from. Qed.

Variable expression_data : gmap string (list (option float)).

Lemma replicates_loop max_reps gene_list
    (dot_data : gmap string (list (string * list (string * float)))) :
  ∃ out,
    for_each gene_list
      (λ g dot_data,
         match expression_data !! g with
         | None => Ok dot_data
         | Some vals =>
             ser ← gene_replicates group_to_indices group_order max_reps vals;
             Ok (<[g := ser]> dot_data)
         end)
      dot_data = Ok out
    ∧ ∀ g, out !! g =
           match (if decide (g ∈ gene_list)
                  then replicate_series samples max_reps
                         <$> expression_data !! g
                  else None) with
           | Some ser => Some ser
           | None => dot_data !! g
           end.
Proof.
  revert dot_data. induction gene_list as [|g0 gene_list IH]; intros dot_data.
  - exists dot_data. split; [done|]. intros g.
    by rewrite decide_False by apply not_elem_of_nil.
  - cbn [for_each].
    destruct (expression_data !! g0) as [vals|] eqn:Hg0.
    + rewrite gene_replicates_ok. cbn [mbind result_bind].
      destruct (IH (<[g0 := replicate_series samples max_reps vals]> dot_data))
        as (out & -> & Hout).
      exists out. split; [done|]. intros g. rewrite Hout.
      destruct (decide (g = g0)) as [->|Hne].
      * rewrite (decide_True (P := g0 ∈ g0 :: gene_list))
          by apply list_elem_of_here.
        rewrite Hg0. simpl. rewrite lookup_insert_eq.
        by destruct (decide (g0 ∈ gene_list)).
      * rewrite lookup_insert_ne by done.
        destruct (decide (g ∈ gene_list)) as [Hin|Hnin].
        -- by rewrite decide_True by (by apply list_elem_of_further).
        -- rewrite decide_False; [done|].
           intros [?|?]%elem_of_cons; done.
    + cbn [mbind result_bind].
      destruct (IH dot_data) as (out & -> & Hout).
      exists out. split; [done|]. intros g. rewrite Hout.
      destruct (decide (g = g0)) as [->|Hne].
      * rewrite (decide_True (P := g0 ∈ g0 :: gene_list))
          by apply list_elem_of_here.
        rewrite Hg0. simpl.
        by destruct (decide (g0 ∈ gene_list)).
      * destruct (decide (g ∈ gene_list)) as [Hin|Hnin].
        -- by rewrite decide_True by (by apply list_elem_of_further).
        -- rewrite decide_False; [done|].
           intros [?|?]%elem_of_cons; done.
Qed.

End replicates.

Lemma replicate_point_spec `{Float} samples vals r s pt :
  replicate_point samples vals r s = Some pt ↔
  ∃ i x, columns_of s samples !! r = Some i
         ∧ vals !! i = Some (Some x)
         ∧ pt = (s, py_round2 x).
Proof.
  unfold replicate_point. split.
  - intros Hpt. destruct (columns_of s samples !! r) as [i|]; [|done].
    cbn [mbind option_bind] in Hpt.
    destruct (vals !! i) as [[x|]|] eqn:Hx; cbn in Hpt; [|done..].
    injection Hpt as <-. by exists i, x.
  - intros (i & x & -> & Hx & ->). cbn [mbind option_bind]. by rewrite Hx.
Qed.

Lemma replicate_series_spec `{Float} samples max_reps vals name pts :
  (name, pts) ∈ replicate_series samples max_reps vals ↔
  ∃ r, r < max_reps
       ∧ name = "Rep " +:+ pretty (r + 1)
       ∧ pts = omap (replicate_point samples vals r) (first_seen samples)
       ∧ pts ≠ [].
Proof.
  unfold replicate_series, slot_series. rewrite list_elem_of_omap. split.
  - intros (r & Hr & Hslot). apply elem_of_seq in Hr. exists r.
    destruct (omap (replicate_point samples vals r) (first_seen samples))
      as [|pt rest]; [done|].
    injection Hslot as <- <-. split_and!; [lia|done|done|done].
  - intros (r & Hr & -> & -> & Hne). exists r.
    split; [apply elem_of_seq; lia|].
    by destruct (omap (replicate_point samples vals r) (first_seen samples)).
Qed.

Lemma max_group_size_none :
  max_group_size (assign_groups []).1 = Raise ValueError.
Proof. unfold max_group_size. simpl. by rewrite map_to_list_empty. Qed.

(** C5. With a header of at least one sample column, [max_reps] is the
    largest group size, computed once for all genes, and the replicate
    series of a gene of [gene_list] with an expression row is, for each slot
    [r] below [max_reps] that yields at least one point and in increasing
    order of [r], the series named ["Rep "] followed by [r + 1], whose
    points are, in group order, the label and the value rounded to two
    decimals of each group that has a column at position [r] with that
    column within the row and not missing; a slot without a point has no
    series, and a gene without a row has no entry. *)
Theorem replicate_series_rule `{Float} (samples gene_list : list string)
    (expression_data : gmap string (list (option float))) :
  let group_to_indices := (assign_groups samples).1 in
  let group_order := (assign_groups samples).2 in
  match samples with
  | [] =>
      build_replicates group_to_indices group_order gene_list expression_data
      = Raise ValueError
  | _ :: _ =>
      ∃ max_reps dot_data,
        max_group_size group_to_indices = Ok max_reps
        ∧ is_max_group_size samples max_reps
        ∧ build_replicates group_to_indices group_order gene_list
            expression_data = Ok dot_data
        ∧ (∀ g, dot_data !! g =
                if decide (g ∈ gene_list)
                then replicate_series samples max_reps
                       <$> expression_data !! g
                else None)
        ∧ (∀ vals name pts,
             (name, pts) ∈ replicate_series samples max_reps vals ↔
             ∃ r, r < max_reps
                  ∧ name = "Rep " +:+ pretty (r + 1)
                  ∧ pts = omap (replicate_point samples vals r) group_order
                  ∧ pts ≠ [])
        ∧ (∀ vals r s pt,
             replicate_point samples vals r s = Some pt ↔
             ∃ i x, group_to_indices !! s ≫= (.!! r) = Some i
                    ∧ vals !! i = Some (Some x)
                    ∧ pt = (s, py_round2 x))
  end.
Proof.
  intros group_to_indices group_order.
  assert (Hcols : ∀ s r, group_to_indices !! s ≫= (.!! r) =
                         columns_of s samples !! r).
  { intros s r. destruct (assign_groups_built samples) as (Hm & _).
    unfold group_to_indices. rewrite Hm.
    destruct (decide (s ∈ samples)) as [|Hs]; [done|].
    unfold columns_of. rewrite filter_none; [done|].
    intros i _ Hi. apply Hs. by eapply list_elem_of_lookup_2. }
  assert (Hsome : samples ≠ [] →
    ∃ max_reps dot_data,
      max_group_size group_to_indices = Ok max_reps
      ∧ is_max_group_size samples max_reps
      ∧ build_replicates group_to_indices group_order gene_list
          expression_data = Ok dot_data
      ∧ (∀ g, dot_data !! g =
              if decide (g ∈ gene_list)
              then replicate_series samples max_reps
                     <$> expression_data !! g
              else None)
      ∧ (∀ vals name pts,
           (name, pts) ∈ replicate_series samples max_reps vals ↔
           ∃ r, r < max_reps
                ∧ name = "Rep " +:+ pretty (r + 1)
                ∧ pts = omap (replicate_point samples vals r) group_order
                ∧ pts ≠ [])
      ∧ (∀ vals r s pt,
           replicate_point samples vals r s = Some pt ↔
           ∃ i x, group_to_indices !! s ≫= (.!! r) = Some i
                  ∧ vals !! i = Some (Some x)
                  ∧ pt = (s, py_round2 x))).
  { intros Hne.
    destruct (max_group_size_ok samples Hne) as (max_reps & Hmax & Hismax).
    destruct (replicates_loop samples expression_data max_reps gene_list ∅)
      as (dot_data & Hloop & Hdot).
    exists max_reps, dot_data. split_and!.
    - done.
    - done.
    - unfold build_replicates, group_to_indices. rewrite Hmax. exact Hloop.
    - intros g. rewrite Hdot, lookup_empty.
      destruct (decide (g ∈ gene_list)); [|done].
      by destruct (expression_data !! g).
    - intros vals name pts. unfold group_order.
      rewrite group_order_first_seen. apply replicate_series_spec.
    - intros vals r s pt. rewrite replicate_point_spec.
      by setoid_rewrite Hcols. }
  clear Hcols. destruct samples as [|s0 rest].
  - unfold build_replicates, group_to_indices.
    by rewrite max_group_size_none.
  - by apply Hsome.
Qed.

Lemma build_replicates_total `{Float} (samples gene_list : list string)
    (expression_data : gmap string (list (option float))) :
  match samples with
  | [] =>
      build_replicates (assign_groups samples).1 (assign_groups samples).2
        gene_list expression_data = Raise ValueError
  | _ :: _ =>
      ∃ dot_data,
        build_replicates (assign_groups samples).1 (assign_groups samples).2
          gene_list expression_data = Ok dot_data
  end.
Proof.
  assert (Hsome : samples ≠ [] →
    ∃ dot_data,
      build_replicates (assign_groups samples).1 (assign_groups samples).2
        gene_list expression_data = Ok dot_data).
  { intros Hne.
    destruct (max_group_size_ok samples Hne) as (max_reps & Hmax & _).
    destruct (replicates_loop samples expression_data max_reps gene_list ∅)
      as (dot_data & Hloop & _).
    exists dot_data. unfold build_replicates. rewrite Hmax. exact Hloop. }
  destruct samples as [|s0 rest].
  - unfold build_replicates. by rewrite max_group_size_none.
  - by apply Hsome.
Qed.

(** ** The whole run *)

(** C10. When the header line of the matrix has no sample column (the
    gene-identifier column alone), the maximum of line 120 is taken over
    an empty collection of group sizes and the run raises [ValueError]
    instead of producing a report; with at least one sample column the run
    produces its report, made of the results of the stages. *)
Theorem main_needs_a_sample_column `{Float} (genes_file matrix_file : list string)
    (annot_file : option (list string)) :
  let gene_list := read_genes genes_file in
  let header := strip (readline matrix_file) in
  let delim := detect_delimiter header in
  let samples := drop 1 (split delim header) in
  let group_to_indices := (assign_groups samples).1 in
  let group_order := (assign_groups samples).2 in
  let expression_data :=
    stored_rows (list_to_set gene_list) delim (tail matrix_file) in
  match samples with
  | [] =>
      max_group_size group_to_indices = Raise ValueError
      ∧ main genes_file matrix_file annot_file = Raise ValueError
  | _ :: _ =>
      ∃ rep,
        main genes_file matrix_file annot_file = Ok rep
        ∧ out_gene_list rep = gene_list
        ∧ out_group_order rep = group_order
        ∧ out_group_to_indices rep = group_to_indices
        ∧ out_expression_data rep = expression_data
        ∧ (out_annot_headers rep, out_gene_col rep, out_annot_data rep) =
            read_annotations annot_file
        ∧ build_series group_to_indices group_order gene_list expression_data
            = Ok (out_line_series rep, out_heatmap_series rep)
        ∧ build_replicates group_to_indices group_order gene_list
            expression_data = Ok (out_dot_data rep)
  end.
Proof.
  intros gene_list header delim samples group_to_indices group_order
    expression_data.
  pose proof (build_replicates_total samples gene_list expression_data) as Hrep.
  fold group_to_indices group_order in Hrep.
  assert (Hmain : main genes_file matrix_file annot_file =
    dot_data ← build_replicates group_to_indices group_order gene_list
                 expression_data;
    Ok (Report _ gene_list group_order group_to_indices expression_data
          (read_annotations annot_file).1.1 (read_annotations annot_file).1.2
          (read_annotations annot_file).2
          (omap (λ g, vals ← expression_data !! g;
                      Some (g, mean_row samples vals)) gene_list)
          (reverse (omap (λ g, vals ← expression_data !! g;
                               Some (g, point_row samples vals)) gene_list))
          dot_data)).
  { unfold main. cbv zeta.
    fold gene_list header delim samples.
    destruct (rows_run (list_to_set gene_list) delim (tail matrix_file))
      as (_ & _ & _ & _ & -> & _).
    fold expression_data.
    destruct (assign_groups samples) as [g2i order] eqn:Hag.
    cbn [mbind result_bind].
    destruct (read_annotations annot_file) as [[hdr col] ad].
    replace g2i with (assign_groups samples).1 by (by rewrite Hag).
    replace order with (assign_groups samples).2 by (by rewrite Hag).
    rewrite build_series_ok. cbn [mbind result_bind].
    unfold group_to_indices, group_order. by rewrite Hag. }
  assert (Hseries := build_series_ok samples expression_data gene_list).
  fold group_to_indices group_order in Hseries.
  destruct samples as [|s0 rest].
  - split; [apply max_group_size_none|].
    rewrite Hmain, Hrep. done.
  - destruct Hrep as (dot_data & Hdot).
    rewrite Hmain, Hdot. cbn [mbind result_bind].
    eexists. split; [done|]. cbn.
    split_and!; try done.
    by destruct (read_annotations annot_file) as [[hdr col] ad].
Qed.

(** * Further properties *)

(** ** White space and fields *)

Lemma append_nil (b : string) : EmptyString +:+ b = b.
Proof. reflexivity. Qed.

Lemma append_cons (x : ascii) (a b : string) :
  String x a +:+ b = String x (a +:+ b).
Proof. reflexivity. Qed.

Lemma append_assoc (a b c : string) : (a +:+ b) +:+ c = a +:+ (b +:+ c).
Proof.
  induction a as [|x a IH]; [done|]. rewrite !append_cons. by f_equal.
Qed.

Lemma lstrip_head s :
  lstrip s = EmptyString
  ∨ ∃ c rest, lstrip s = String c rest ∧ isspace c = false.
Proof.
  induction s as [|a s IH]; simpl; [by left|].
  destruct (isspace a) eqn:Ha; [done|]. right. by exists a, s.
Qed.

Lemma rstrip_idem s : rstrip (rstrip s) = rstrip s.
Proof.
  induction s as [|a s IH]; simpl; [done|].
  destruct (rstrip s) as [|b r] eqn:Hr.
  - destruct (isspace a) eqn:Ha; simpl; [done|]. by rewrite Ha.
  - change (rstrip (String a (String b r)))
      with (match rstrip (String b r) with
            | EmptyString =>
                if isspace a then EmptyString else String a EmptyString
            | t => String a t
            end).
    by rewrite IH.
Qed.

Lemma rstrip_cons c rest :
  isspace c = false → ∃ r, rstrip (String c rest) = String c r.
Proof.
  intros Hc. simpl. destruct (rstrip rest) as [|b r].
  - rewrite Hc. by eexists.
  - by eexists.
Qed.

Lemma strip_idem s : strip (strip s) = strip s.
Proof.
  unfold strip. destruct (lstrip_head s) as [->|(c & rest & -> & Hc)]; [done|].
  destruct (rstrip_cons c rest Hc) as [r Hr]. rewrite Hr.
  cbn [lstrip]. rewrite Hc, <- Hr. apply rstrip_idem.
Qed.

Lemma lstrip_whitespace w : whitespace w → lstrip w = EmptyString.
Proof.
  unfold whitespace. induction w as [|a w IH]; simpl; [done|].
  intros [Ha Hw]%andb_true_iff. rewrite Ha. by apply IH.
Qed.

Lemma rstrip_whitespace w : whitespace w → rstrip w = EmptyString.
Proof.
  unfold whitespace. induction w as [|a w IH]; simpl; [done|].
  intros [Ha Hw]%andb_true_iff. rewrite (IH Hw). by rewrite Ha.
Qed.

Lemma rstrip_append s w : whitespace w → rstrip (s +:+ w) = rstrip s.
Proof.
  intros Hw. induction s as [|a s IH].
  - by apply rstrip_whitespace.
  - rewrite append_cons. simpl. by rewrite IH.
Qed.

Lemma lstrip_append s w :
  whitespace w →
  lstrip (s +:+ w) =
  match lstrip s with
  | EmptyString => EmptyString
  | t => t +:+ w
  end.
Proof.
  intros Hw. induction s as [|a s IH].
  - by apply lstrip_whitespace.
  - rewrite append_cons. simpl. destruct (isspace a); [exact IH | done].
Qed.

Lemma strip_append s w : whitespace w → strip (s +:+ w) = strip s.
Proof.
  intros Hw. unfold strip. rewrite lstrip_append by done.
  destruct (lstrip s) as [|c t]; [done|]. by apply rstrip_append.
Qed.

Lemma split_length sep s : length (split sep s) = count sep s + 1.
Proof.
  induction s as [|a s IH]; simpl; [done|].
  destruct (Ascii.eqb a sep); simpl; [by rewrite IH|].
  destruct (split sep s); simpl in *; lia.
Qed.

Lemma join_cons sep f g rest :
  join sep (f :: g :: rest) = f +:+ String sep (join sep (g :: rest)).
Proof. reflexivity. Qed.

Lemma split_join sep s : join sep (split sep s) = s.
Proof.
  induction s as [|a s IH]; [done|]. cbn [split].
  destruct (split_cons sep s) as (f & fs & Hs). rewrite Hs in *.
  destruct (Ascii.eqb_spec a sep) as [->|Hne].
  - by rewrite join_cons, append_nil, IH.
  - destruct fs as [|g gs].
    + simpl in *. by rewrite IH.
    + rewrite join_cons, append_cons, <- join_cons. by rewrite IH.
Qed.

Lemma split_fields sep s f : f ∈ split sep s → contains sep f = false.
Proof.
  revert f. induction s as [|a s IH]; intros f; simpl.
  - by intros ->%list_elem_of_singleton.
  - destruct (Ascii.eqb a sep) eqn:Ha.
    + intros [->|Hf]%elem_of_cons; [done | by apply IH].
    + destruct (split_cons sep s) as (g & gs & Hs). rewrite Hs in *.
      intros [->|Hf]%elem_of_cons.
      * simpl. rewrite Ha. apply IH, list_elem_of_here.
      * by apply IH, list_elem_of_further.
Qed.

Lemma split_without sep s : contains sep s = false → split sep s = [s].
Proof.
  induction s as [|a s IH]; simpl; [done|].
  destruct (Ascii.eqb a sep); [done|]. intros Hs. by rewrite IH.
Qed.

Lemma contains_count sep s : contains sep s = true ↔ 0 < count sep s.
Proof.
  induction s as [|a s IH]; simpl.
  - split; [done | lia].
  - destruct (Ascii.eqb a sep); [split; [intros; lia | done]|].
    by rewrite IH.
Qed.

Lemma strip_whitespace w : whitespace w → strip w = EmptyString.
Proof. intros Hw. unfold strip. by rewrite lstrip_whitespace. Qed.

Lemma read_genes_filter f :
  read_genes f = filter (λ g, g ≠ EmptyString) (strip <$> f).
Proof.
  unfold read_genes. induction f as [|l f IH]; [done|].
  rewrite fmap_cons, !filter_cons.
  destruct (decide (strip l ≠ EmptyString)); [rewrite fmap_cons|];
    by rewrite IH.
Qed.

Lemma read_genes_fixed gl :
  (∀ g, g ∈ gl → g ≠ EmptyString ∧ strip g = g) → read_genes gl = gl.
Proof.
  unfold read_genes. induction gl as [|g gl IH]; intros Hgl; [done|].
  destruct (Hgl g (list_elem_of_here _ _)) as [Hne Hg].
  rewrite filter_cons, decide_True by (by rewrite Hg).
  rewrite fmap_cons, Hg. f_equal. apply IH.
  intros g' Hg'. apply Hgl. by apply list_elem_of_further.
Qed.

(** X1. The gene list is the stripped lines of the genes file that are not
    empty once stripped, in file order: every gene of the list is
    non-empty and free of surrounding white space, a line of white space
    alone adds nothing, and reading the gene list again as a file gives the
    same gene list. *)
Theorem read_genes_clean (f : list string) :
  read_genes f = filter (λ g, g ≠ EmptyString) (strip <$> f)
  ∧ (∀ g, g ∈ read_genes f ↔ g ≠ EmptyString ∧ ∃ l, l ∈ f ∧ g = strip l)
  ∧ (∀ g, g ∈ read_genes f → strip g = g)
  ∧ (∀ pre l post, whitespace l →
       read_genes (pre ++ l :: post) = read_genes (pre ++ post))
  ∧ read_genes (read_genes f) = read_genes f.
Proof.
  assert (Hin : ∀ g, g ∈ read_genes f ↔
                     g ≠ EmptyString ∧ ∃ l, l ∈ f ∧ g = strip l).
  { intros g. rewrite read_genes_filter, list_elem_of_filter, list_elem_of_fmap.
    naive_solver. }
  assert (Hstrip : ∀ g, g ∈ read_genes f → strip g = g).
  { intros g (_ & l & _ & ->)%Hin. apply strip_idem. }
  split_and!; [apply read_genes_filter|done|done| |].
  - intros pre l post Hl. unfold read_genes.
    rewrite !filter_app, filter_cons, decide_False; [done|].
    intros Hne. apply Hne. by apply strip_whitespace.
  - apply read_genes_fixed. intros g Hg. split; [|by apply Hstrip].
    by apply Hin in Hg as [? _].
Qed.

(** ** More on the matrix reader *)

Lemma store_step_strip `{Float} gene_set delim data a b :
  strip a = strip b →
  row_gene delim a = row_gene delim b
  ∧ store_step gene_set delim data a = store_step gene_set delim data b.
Proof.
  intros Hab. unfold store_step, row_gene, row_values. by rewrite Hab.
Qed.

(** Lines with the same stripped text are read alike. *)
Lemma read_rows_strip `{Float} gene_set delim mf mf' data :
  Forall2 (λ a b, strip a = strip b) mf mf' →
  ∃ out unread unread',
    read_rows gene_set delim mf data = Ok (out, unread)
    ∧ read_rows gene_set delim mf' data = Ok (out, unread')
    ∧ length unread = length unread'.
Proof.
  intros Hmf. revert data.
  induction Hmf as [|a b mf mf' Hab Hmf IH]; intros data.
  - by exists data, [], [].
  - rewrite !read_rows_cons.
    destruct (store_step_strip gene_set delim data a b Hab) as [<- <-].
    destruct (decide (row_gene delim a ∈ gene_set)); [|apply IH].
    destruct (decide (size (store_step gene_set delim data a)
                      = size gene_set)); [|apply IH].
    eexists _, mf, mf'. split_and!; [done|done|].
    by eapply Forall2_length.
Qed.

(** X2. White space at the end of a data line is dropped before the line
    is split, whatever the delimiter: the line has the same gene, the same
    row and the same effect on the store and on the number of lines read
    as the line without it.  Trailing tabs are white space, so the empty
    cells that end a tab-separated line are not part of its row. *)
Theorem trailing_whitespace_ignored `{Float} (gene_set : gset string)
    (delim : ascii) (pre post : list string) (line w : string) :
  whitespace w →
  row_gene delim (line +:+ w) = row_gene delim line
  ∧ row_values delim (line +:+ w) = row_values delim line
  ∧ stored_rows gene_set delim (pre ++ (line +:+ w) :: post) =
      stored_rows gene_set delim (pre ++ line :: post)
  ∧ lines_read gene_set delim (pre ++ (line +:+ w) :: post) =
      lines_read gene_set delim (pre ++ line :: post).
Proof.
  intros Hw. pose proof (strip_append line w Hw) as Hs.
  split_and!.
  - unfold row_gene. by rewrite Hs.
  - unfold row_values. by rewrite Hs.
  - destruct (read_rows_strip gene_set delim
                (pre ++ (line +:+ w) :: post) (pre ++ line :: post) ∅)
      as (out & u & u' & Hr & Hr' & _).
    { apply Forall2_app; [by apply Forall_Forall2_diag, Forall_true|].
      constructor; [done|]. by apply Forall_Forall2_diag, Forall_true. }
    unfold stored_rows. by rewrite Hr, Hr'.
  - destruct (read_rows_strip gene_set delim
                (pre ++ (line +:+ w) :: post) (pre ++ line :: post) ∅)
      as (out & u & u' & Hr & Hr' & Hlen).
    { apply Forall2_app; [by apply Forall_Forall2_diag, Forall_true|].
      constructor; [done|]. by apply Forall_Forall2_diag, Forall_true. }
    unfold lines_read. rewrite Hr, Hr', Hlen.
    rewrite !length_app. simpl. done.
Qed.

(** X3. Splitting the stripped header on its detected delimiter loses
    nothing: joining the columns with the delimiter gives the header back,
    no column holds the delimiter, and the number of sample columns is the
    number of delimiters in the header, which is positive exactly when the
    header holds a tab, a semicolon or a comma. *)
Theorem header_fields (matrix_file : list string) :
  let header := strip (readline matrix_file) in
  let delim := detect_delimiter header in
  let cols := split delim header in
  join delim cols = header
  ∧ (∀ c, c ∈ cols → contains delim c = false)
  ∧ length (drop 1 cols) = count delim header
  ∧ (0 < count delim header ↔
     contains tab header || contains semicolon header
     || contains comma header = true).
Proof.
  intros header delim cols. split_and!.
  - apply split_join.
  - intros c. apply split_fields.
  - unfold cols. rewrite length_drop, split_length. lia.
  - rewrite <- contains_count. unfold delim, detect_delimiter.
    destruct (contains tab header) eqn:Ht; simpl.
    + destruct (count comma header <=? count tab header)%nat eqn:Hle.
      * by rewrite Ht.
      * apply Nat.leb_gt in Hle.
        assert (Hc : contains comma header = true).
        { apply contains_count. lia. }
        destruct (contains semicolon header) eqn:Hs; [by rewrite Hs|].
        by rewrite Hc, Hc.
    + destruct (contains semicolon header) eqn:Hs; [by rewrite Hs|].
      destruct (contains comma header) eqn:Hc; [by rewrite Hc|].
      by rewrite Ht.
Qed.

Lemma detected_delimiter_present header :
  contains (detect_delimiter header) header =
  contains tab header || contains semicolon header || contains comma header.
Proof.
  unfold detect_delimiter.
  destruct (contains tab header) eqn:Ht; simpl.
  - destruct (count comma header <=? count tab header)%nat eqn:Hle; [done|].
    apply Nat.leb_gt in Hle.
    assert (Hc : contains comma header = true).
    { apply contains_count. lia. }
    destruct (contains semicolon header) eqn:Hs; [done|]. by rewrite Hc.
  - destruct (contains semicolon header) eqn:Hs; [done|].
    destruct (contains comma header) eqn:Hc; [by rewrite Hc | by rewrite Ht].
Qed.

(** The outcome of the run, by the sample columns of the header. *)
Lemma main_outcome `{Float} (genes_file matrix_file : list string)
    (annot_file : option (list string)) :
  let header := strip (readline matrix_file) in
  match drop 1 (split (detect_delimiter header) header) with
  | [] => main genes_file matrix_file annot_file = Raise ValueError
  | _ :: _ => ∃ rep, main genes_file matrix_file annot_file = Ok rep
  end.
Proof.
  intros header. unfold main. cbv zeta. fold header.
  set (samples := drop 1 (split (detect_delimiter header) header)).
  set (gene_list := read_genes genes_file).
  destruct (rows_run (list_to_set gene_list) (detect_delimiter header)
              (tail matrix_file)) as (_ & _ & _ & _ & -> & _).
  pose proof (build_replicates_total samples gene_list
                (stored_rows (list_to_set gene_list)
                   (detect_delimiter header) (tail matrix_file))) as Hrep.
  pose proof (build_series_ok samples
                (stored_rows (list_to_set gene_list)
                   (detect_delimiter header) (tail matrix_file))
                gene_list) as Hser.
  destruct (assign_groups samples) as [g2i order] eqn:Hag.
  cbn [mbind result_bind fst snd] in *.
  destruct (read_annotations annot_file) as [[hdr col] ad].
  rewrite Hser. cbn [mbind result_bind].
  destruct samples as [|s0 rest].
  - by rewrite Hrep.
  - destruct Hrep as [dot_data ->]. cbn [mbind result_bind]. by eexists.
Qed.

(** X4. The run produces a report exactly when the stripped header line
    of the matrix holds a tab, a semicolon or a comma; a header with none
    of them, such as a space-separated one or an empty file, has no sample
    column and the run ends in [ValueError], whatever the genes, the rows
    and the annotations. *)
Theorem main_needs_a_delimiter `{Float} (genes_file matrix_file : list string)
    (annot_file : option (list string)) :
  let header := strip (readline matrix_file) in
  if contains tab header || contains semicolon header || contains comma header
  then ∃ rep, main genes_file matrix_file annot_file = Ok rep
  else main genes_file matrix_file annot_file = Raise ValueError.
Proof.
  intros header.
  pose proof (main_outcome genes_file matrix_file annot_file) as Hout.
  cbv zeta in Hout. fold header in Hout.
  rewrite <- detected_delimiter_present.
  destruct (contains (detect_delimiter header) header) eqn:Hd.
  - apply contains_count in Hd.
    pose proof (split_length (detect_delimiter header) header) as Hlen.
    destruct (split (detect_delimiter header) header) as [|c [|c' cols]];
      simpl in *; [lia|lia|done].
  - by rewrite (split_without _ _ Hd) in Hout.
Qed.

(** X5. Lines are left unread only when every requested gene has been
    found: if the loop stops before the end of the matrix, the genes with a
    row are exactly the requested genes. *)
Theorem unread_lines_all_found `{Float} (gene_set : gset string)
    (delim : ascii) (mf : list string) :
  lines_read gene_set delim mf < length mf →
  dom (stored_rows gene_set delim mf) = gene_set.
Proof.
  intros Hlt.
  destruct (rows_run gene_set delim mf)
    as (n & _ & Hread & Hst & _ & _ & Hstop).
  rewrite Hread in Hlt.
  destruct (Hstop Hlt) as (i & -> & line & _ & _ & Hsz).
  rewrite <- Hst in Hsz.
  apply set_subseteq_size_eq; [apply stored_rows_dom|].
  rewrite size_dom. lia.
Qed.

(** ** The data table *)

Lemma for_each_concat {A B} (xs : list A) (body : A → list B → result (list B))
    (F : A → list B) (out : list B) :
  (∀ x out, x ∈ xs → body x out = Ok (out ++ F x)) →
  for_each xs body out = Ok (out ++ concat (F <$> xs)).
Proof.
  revert out. induction xs as [|x xs IH]; intros out Hbody.
  - simpl. by rewrite app_nil_r.
  - cbn [for_each]. rewrite Hbody by apply list_elem_of_here.
    cbn [mbind result_bind]. rewrite IH.
    + rewrite fmap_cons. simpl. by rewrite <- app_assoc.
    + intros y out' Hy. apply Hbody. by apply list_elem_of_further.
Qed.

Lemma for_each_write {A} (xs : list A) (f : A → string) (out : list string) :
  for_each xs (λ x out, Ok (write out (f x))) out = Ok (out ++ (f <$> xs)).
Proof.
  revert out. induction xs as [|x xs IH]; intros out.
  - simpl. by rewrite app_nil_r.
  - cbn [for_each mbind result_bind]. rewrite IH. unfold write.
    by rewrite <- app_assoc.
Qed.

Lemma head_chunk s r :
  "<th>" +:+ s +:+ " (" +:+ pretty (r + 1) +:+ ")</th>" =
  th (s +:+ " (" +:+ pretty (r + 1) +:+ ")").
Proof. unfold th. by rewrite !append_assoc. Qed.

Lemma length_delete_either {A} (l : list A) i :
  length (delete i l) =
  length l - (if decide (i < length l) then 1 else 0).
Proof.
  revert i. induction l as [|x l IH]; intros [|i]; simpl; [done|done|lia|].
  rewrite IH. repeat case_decide; lia.
Qed.

Lemma write_annot_from i cs col cell out :
  write_annot i cs col cell out =
  out ++ (if decide (i ≤ col)
          then delete (col - i) (imap (λ j, cell (i + j)) cs)
          else imap (λ j, cell (i + j)) cs).
Proof.
  revert i out. induction cs as [|c cs IH]; intros i out.
  - simpl. case_decide; by rewrite app_nil_r.
  - cbn [write_annot]. rewrite IH, imap_cons. unfold write.
    replace (i + 0) with i by lia.
    assert (Hext : imap ((λ j, cell (i + j)) ∘ S) cs
                   = imap (λ j, cell (S i + j)) cs).
    { apply imap_ext. intros j x _. simpl. f_equal. lia. }
    rewrite Hext.
    destruct (decide (i = col)) as [->|Hne].
    + rewrite decide_False by lia. rewrite decide_True by lia.
      by replace (col - col) with 0 by lia.
    + destruct (decide (S i ≤ col)) as [Hle|Hgt].
      * rewrite decide_True by lia.
        replace (col - i) with (S (col - S i)) by lia.
        simpl. by rewrite <- app_assoc.
      * rewrite decide_False by lia. by rewrite <- app_assoc.
Qed.

Lemma write_annot_heads hdr col out :
  write_annot 0 hdr col (λ _ c, "<th>" +:+ c +:+ "</th>") out =
  out ++ (th <$> delete col hdr).
Proof.
  rewrite write_annot_from, decide_True by lia.
  replace (col - 0) with col by lia.
  rewrite (imap_ext _ (const th)) by done.
  by rewrite imap_const, list_fmap_delete.
Qed.

Lemma write_annot_cells hdr col ann out :
  write_annot 0 hdr col (annot_td ann) out =
  out ++ (td <$> delete col (padded hdr ann)).
Proof.
  rewrite write_annot_from, decide_True by lia.
  replace (col - 0) with col by lia.
  rewrite (imap_ext _ (λ j _, td (default EmptyString (ann !! j)))).
  - rewrite imap_seq_0. unfold padded.
    by rewrite list_fmap_delete, <- list_fmap_compose.
  - intros j c _. unfold annot_td, td. simpl.
    destruct (decide (j < length ann)) as [Hj|Hj].
    + by rewrite (list_lookup_lookup_total_lt ann j Hj).
    + by rewrite lookup_ge_None_2 by lia.
Qed.

Section table.
Context `{FloatText}.
Variable samples : list string.

Local Abbreviation group_to_indices := (assign_groups samples).1.
Local Abbreviation group_order := (assign_groups samples).2.

Lemma write_sample_heads_ok out :
  write_sample_heads group_to_indices group_order out =
  Ok (out ++ (th <$> sample_heads samples)).
Proof.
  unfold write_sample_heads, sample_heads.
  rewrite (for_each_concat _ _
             (λ s, (λ r, th (s +:+ " (" +:+ pretty (r + 1) +:+ ")"))
                     <$> seq 0 (length (columns_of s samples)))).
  - rewrite group_order_first_seen. do 2 f_equal.
    induction (first_seen samples) as [|s l IH]; [done|].
    rewrite !fmap_cons. simpl. rewrite fmap_app, <- IH.
    by rewrite <- list_fmap_compose.
  - intros s out' Hs.
    rewrite group_getitem
      by (by rewrite group_order_first_seen, first_seen_elem in Hs).
    cbn [mbind result_bind].
    rewrite (for_each_write _
               (λ r, "<th>" +:+ s +:+ " (" +:+ pretty (r + 1) +:+ ")</th>")).
    do 2 f_equal. apply list_fmap_ext. intros _ r _. apply head_chunk.
Qed.

Lemma sample_cells_from row idxs out :
  for_each idxs
    (λ idx out,
       let val := if decide (idx < length row) then row !!! idx else None in
       let cell := match val with
                   | Some x => py_str (py_round2 x)
                   | None => EmptyString
                   end in
       Ok (write out ("<td>" +:+ cell +:+ "</td>")))
    out
  = Ok (out ++ ((λ idx, td (sample_cell row idx)) <$> idxs)).
Proof.
  revert out. induction idxs as [|idx idxs IH]; intros out.
  - simpl. by rewrite app_nil_r.
  - cbn [for_each mbind result_bind]. cbv zeta. rewrite IH. unfold write.
    rewrite <- app_assoc. do 2 f_equal. simpl. f_equal.
    unfold td, sample_cell.
    destruct (decide (idx < length row)) as [Hi|Hi].
    + by rewrite (list_lookup_lookup_total_lt row idx Hi).
    + by rewrite lookup_ge_None_2 by lia.
Qed.

Lemma write_sample_cells_ok row out :
  write_sample_cells group_to_indices group_order row out =
  Ok (out ++ ((λ idx, td (sample_cell row idx)) <$> table_columns samples)).
Proof.
  unfold write_sample_cells, table_columns.
  rewrite (for_each_concat _ _
             (λ s, (λ idx, td (sample_cell row idx)) <$> columns_of s samples)).
  - rewrite group_order_first_seen. do 2 f_equal.
    induction (first_seen samples) as [|s l IH]; [done|].
    rewrite !fmap_cons. simpl. by rewrite fmap_app, <- IH.
  - intros s out' Hs.
    rewrite group_getitem
      by (by rewrite group_order_first_seen, first_seen_elem in Hs).
    cbn [mbind result_bind]. apply sample_cells_from.
Qed.

End table.

Lemma table_rows_from `{FloatText} samples gene_list
    (expression_data : gmap string (list (option float)))
    annot_headers gene_col (annot_data : gmap string (list string)) out :
  for_each gene_list
    (λ g out,
       match expression_data !! g with
       | None => Ok out
       | Some row =>
           let out := write out "<tr>" in
           let out := write out ("<td>" +:+ g +:+ "</td>") in
           out ← write_sample_cells (assign_groups samples).1
                   (assign_groups samples).2 row out;
           let out :=
             match annot_headers with
             | [] => out
             | _ :: _ =>
                 write_annot 0 annot_headers gene_col
                   (annot_td (default [] (annot_data !! g))) out
             end in
           Ok (write out ("</tr>" +:+ nl))
       end)
    out
  = Ok (out ++ concat ((λ gr, render_row gr.1 gr.2) <$>
          omap (λ g, row ← expression_data !! g;
                     Some (g, body_cells samples annot_headers gene_col
                                annot_data g row)) gene_list)).
Proof.
  revert out. induction gene_list as [|g gene_list IH]; intros out.
  - simpl. by rewrite app_nil_r.
  - cbn [for_each omap list_omap].
    destruct (expression_data !! g) as [row|]; cbn [mbind result_bind option_bind].
    + cbv zeta. rewrite write_sample_cells_ok. cbn [mbind result_bind].
      assert (Hann :
        match annot_headers with
        | [] => write (write out "<tr>") ("<td>" +:+ g +:+ "</td>")
                ++ ((λ idx, td (sample_cell row idx)) <$> table_columns samples)
        | _ :: _ =>
            write_annot 0 annot_headers gene_col
              (annot_td (default [] (annot_data !! g)))
              (write (write out "<tr>") ("<td>" +:+ g +:+ "</td>")
               ++ ((λ idx, td (sample_cell row idx)) <$> table_columns samples))
        end
        = out ++ ["<tr>"; td g]
              ++ (td <$> body_cells samples annot_headers gene_col
                           annot_data g row)).
      { unfold body_cells, write. rewrite fmap_app, <- !list_fmap_compose.
        destruct annot_headers as [|c cs] eqn:Hh.
        - unfold padded. simpl. rewrite app_nil_r, <- !app_assoc. done.
        - rewrite <- Hh, write_annot_cells, <- !app_assoc. done. }
      rewrite Hann, IH. unfold write, render_row.
      rewrite fmap_cons. cbn [concat fst snd].
      f_equal. rewrite <- !(assoc_L (++)). done.
    + apply IH.
Qed.

Lemma write_table_ok `{FloatText} samples gene_list
    (expression_data : gmap string (list (option float)))
    annot_headers gene_col (annot_data : gmap string (list string)) out :
  write_table (assign_groups samples).1 (assign_groups samples).2 gene_list
    expression_data annot_headers gene_col annot_data out
  = Ok (out ++ render_table (head_cells samples annot_headers gene_col)
          (omap (λ g, row ← expression_data !! g;
                      Some (g, body_cells samples annot_headers gene_col
                                 annot_data g row)) gene_list)).
Proof.
  unfold write_table. cbv zeta. rewrite write_sample_heads_ok.
  cbn [mbind result_bind].
  assert (Hhead :
    match annot_headers with
    | [] => write (write out ("<thead><tr>" +:+ nl)) ("<th>Gene ID</th>" +:+ nl)
            ++ (th <$> sample_heads samples)
    | _ :: _ =>
        write_annot 0 annot_headers gene_col (λ _ c, "<th>" +:+ c +:+ "</th>")
          (write (write out ("<thead><tr>" +:+ nl)) ("<th>Gene ID</th>" +:+ nl)
           ++ (th <$> sample_heads samples))
    end
    = out ++ ["<thead><tr>" +:+ nl; "<th>Gene ID</th>" +:+ nl]
          ++ (th <$> head_cells samples annot_headers gene_col)).
  { unfold head_cells, write. rewrite fmap_app.
    destruct annot_headers as [|c cs] eqn:Hh.
    - simpl. rewrite app_nil_r, <- !app_assoc. done.
    - rewrite <- Hh, write_annot_heads, <- !app_assoc. done. }
  rewrite Hhead, table_rows_from. cbn [mbind result_bind].
  unfold write, render_table. by rewrite <- !app_assoc.
Qed.

Lemma omap_genes `{Float} {B}
    (expression_data : gmap string (list (option float)))
    (f : string → list (option float) → B) (gene_list : list string) :
  (omap (λ g, row ← expression_data !! g; Some (g, f g row)) gene_list).*1 =
  genes_with_data gene_list expression_data.
Proof.
  unfold genes_with_data.
  induction gene_list as [|g gene_list IH]; [done|].
  cbn [omap list_omap]. rewrite filter_cons.
  destruct (decide (is_Some (expression_data !! g))) as [[row Hg]|Hg].
  - rewrite Hg. simpl. by rewrite <- IH.
  - apply eq_None_not_Some in Hg. rewrite Hg. exact IH.
Qed.

Lemma elem_of_concat {A} (x : A) (ls : list (list A)) :
  x ∈ concat ls ↔ ∃ l, x ∈ l ∧ l ∈ ls.
Proof.
  induction ls as [|l ls IH]; simpl.
  - split; [by intros ?%not_elem_of_nil|]. by intros (l & _ & ?%not_elem_of_nil).
  - rewrite elem_of_app, IH. split.
    + intros [Hx|(l' & Hx & Hl')].
      * exists l. split; [done | apply list_elem_of_here].
      * exists l'. split; [done | by apply list_elem_of_further].
    + intros (l' & Hx & [->|Hl']%elem_of_cons); [by left|].
      right. by exists l'.
Qed.

Lemma table_columns_elem samples i :
  i ∈ table_columns samples ↔ i < length samples.
Proof.
  unfold table_columns. rewrite elem_of_concat. split.
  - intros (idxs & Hi & (s & -> & _)%list_elem_of_fmap).
    apply columns_of_elem in Hi. by eapply lookup_lt_Some.
  - intros Hi. destruct (lookup_lt_is_Some_2 samples i Hi) as [s Hs].
    exists (columns_of s samples). split; [by apply columns_of_elem|].
    apply list_elem_of_fmap. exists s. split; [done|].
    apply first_seen_elem. by eapply list_elem_of_lookup_2.
Qed.

Lemma columns_NoDup samples (labels : list string) :
  NoDup labels →
  NoDup (concat ((λ s, columns_of s samples) <$> labels)).
Proof.
  induction 1 as [|s labels Hs Hl IH]; [constructor|].
  rewrite fmap_cons. simpl. apply NoDup_app. split_and!.
  - apply NoDup_filter, NoDup_seq.
  - intros i Hi (idxs & Hi' & (t & -> & Ht)%list_elem_of_fmap)%elem_of_concat.
    apply columns_of_elem in Hi, Hi'. congruence.
  - done.
Qed.

Lemma table_columns_perm samples :
  table_columns samples ≡ₚ seq 0 (length samples).
Proof.
  apply NoDup_Permutation.
  - apply columns_NoDup, first_seen_NoDup.
  - apply NoDup_seq.
  - intros i. rewrite table_columns_elem, elem_of_seq. lia.
Qed.

Lemma table_columns_length samples :
  length (table_columns samples) = length samples.
Proof. by rewrite table_columns_perm, length_seq. Qed.

Lemma sample_heads_length samples :
  length (sample_heads samples) = length (table_columns samples).
Proof.
  unfold sample_heads, table_columns.
  induction (first_seen samples) as [|s l IH]; [done|].
  rewrite !fmap_cons. simpl.
  by rewrite !length_app, IH, length_fmap, length_seq.
Qed.

(** X6. The data table is rectangular: the table is written without an
    exception, its rows are those of the genes of [gene_list] that have an
    expression row, in that order, and every row has as many cells after
    the gene identifier as the head row has after ["Gene ID"]: one for each
    sample column and one for each annotation column but the
    gene-identifier one. *)
Theorem table_is_rectangular `{FloatText} (samples gene_list : list string)
    (expression_data : gmap string (list (option float)))
    (annot_headers : list string) (gene_col : nat)
    (annot_data : gmap string (list string)) (out : list string) :
  let head := head_cells samples annot_headers gene_col in
  let body :=
    omap (λ g, row ← expression_data !! g;
               Some (g, body_cells samples annot_headers gene_col
                          annot_data g row)) gene_list in
  write_table (assign_groups samples).1 (assign_groups samples).2 gene_list
    expression_data annot_headers gene_col annot_data out
  = Ok (out ++ render_table head body)
  ∧ body.*1 = genes_with_data gene_list expression_data
  ∧ Forall (λ gr, length gr.2 = length head) body
  ∧ length head =
      length samples
      + (length annot_headers
         - (if decide (gene_col < length annot_headers) then 1 else 0)).
Proof.
  intros head body.
  assert (Hcols := table_columns_length samples).
  assert (Hheads := sample_heads_length samples).
  split_and!.
  - apply write_table_ok.
  - apply omap_genes.
  - apply Forall_forall. intros [g cells] (g' & _ & Hg)%list_elem_of_omap.
    destruct (expression_data !! g') as [row|]; [|done].
    simpl in Hg. injection Hg as <- <-. simpl.
    unfold body_cells, head, head_cells.
    rewrite !length_app, length_fmap, !length_delete_either.
    unfold padded. rewrite length_fmap, length_seq. lia.
  - unfold head, head_cells. rewrite length_app, length_delete_either. lia.
Qed.

Lemma table_columns_snoc samples t :
  t ∉ samples →
  table_columns (samples ++ [t]) = table_columns samples ++ [length samples].
Proof.
  intros Ht. unfold table_columns.
  rewrite first_seen_snoc, decide_False by done.
  rewrite fmap_app, concat_app. simpl. rewrite app_nil_r. f_equal.
  - f_equal. apply list_fmap_ext. intros i s Hs.
    apply list_elem_of_lookup_2 in Hs.
    apply (proj1 (first_seen_elem _ _)) in Hs.
    rewrite columns_of_snoc, decide_False, app_nil_r; [done|].
    by intros ->.
  - rewrite columns_of_snoc, decide_True by done.
    unfold columns_of at 1. rewrite filter_none; [done|].
    intros i _ Hi. apply Ht. by eapply list_elem_of_lookup_2.
Qed.

Lemma table_columns_distinct samples :
  NoDup samples → table_columns samples = seq 0 (length samples).
Proof.
  induction samples as [|t samples IH] using rev_ind; intros Hnd; [done|].
  apply NoDup_app in Hnd as (Hnd & Hnot & _).
  rewrite table_columns_snoc.
  - rewrite IH by done. rewrite length_app. simpl.
    by rewrite Nat.add_1_r, seq_S.
  - intros Hin. by apply (Hnot t Hin), list_elem_of_here.
Qed.

(** X7. The sample cells of a table row are the cells of all the sample
    columns, each column once: the columns come group after group in group
    order, the columns of a group in file order, which is a rearrangement
    of the file's columns and is the file's own order when no two sample
    labels are equal.  A cell shows the value rounded to two decimals, and
    is empty for a missing value and for a column beyond the end of the
    row. *)
Theorem table_covers_sample_columns `{FloatText} (samples : list string)
    (row : list (option float)) (out : list string) :
  write_sample_cells (assign_groups samples).1 (assign_groups samples).2
    row out
  = Ok (out ++ ((λ idx, td (sample_cell row idx)) <$> table_columns samples))
  ∧ table_columns samples ≡ₚ seq 0 (length samples)
  ∧ (NoDup samples → table_columns samples = seq 0 (length samples))
  ∧ (∀ idx x, row !! idx = Some (Some x) →
       sample_cell row idx = py_str (py_round2 x))
  ∧ (∀ idx, row !! idx = Some None ∨ length row ≤ idx →
       sample_cell row idx = EmptyString).
Proof.
  split_and!.
  - apply write_sample_cells_ok.
  - apply table_columns_perm.
  - apply table_columns_distinct.
  - intros idx x Hx. unfold sample_cell. by rewrite Hx.
  - intros idx [Hx|Hx]; unfold sample_cell.
    + by rewrite Hx.
    + by rewrite lookup_ge_None_2.
Qed.

Lemma find_gene_col_lt hdr : hdr ≠ [] → find_gene_col 0 hdr < length hdr.
Proof.
  intros Hne.
  destruct (find_gene_col_spec 0 hdr) as [(j & h & -> & Hj & _)|[-> _]].
  - apply lookup_lt_Some in Hj. lia.
  - destruct hdr; [done | simpl; lia].
Qed.

Lemma padded_same_length hdr (parts : list string) :
  length parts = length hdr → padded hdr parts = parts.
Proof.
  intros Hlen. unfold padded. rewrite <- Hlen.
  apply list_eq. intros i. rewrite list_lookup_fmap.
  destruct (decide (i < length parts)) as [Hi|Hi].
  - rewrite lookup_seq_lt by done. simpl.
    destruct (lookup_lt_is_Some_2 parts i Hi) as [x Hx]. by rewrite Hx.
  - rewrite lookup_seq_ge by lia. by rewrite lookup_ge_None_2 by lia.
Qed.

Lemma padded_nil hdr : padded hdr [] = replicate (length hdr) EmptyString.
Proof.
  unfold padded. generalize 0. induction (length hdr) as [|n IH]; intros a.
  - done.
  - simpl. by rewrite IH.
Qed.

Lemma delete_replicate {A} (x : A) n i :
  i < n → delete i (replicate n x) = replicate (n - 1) x.
Proof.
  revert i. induction n as [|n IH]; intros i Hi; [lia|].
  destruct i as [|i]; simpl.
  - by rewrite Nat.sub_0_r.
  - rewrite IH by lia. destruct n; [lia|]. simpl. by rewrite Nat.sub_0_r.
Qed.

(** X8. The annotation cells of a table row, for an annotation file: the
    gene-identifier column lies within the header, and the row of a gene
    has one annotation cell for each other header column, whatever the
    length of its annotation row.  The cells are the fields of the gene's
    annotation row without the gene-identifier field, which holds the gene
    itself, cut or completed with empty cells to the width of the header;
    a gene without an annotation row has empty cells only. *)
Theorem annotation_cells_join (af : list string) (g : string)
    (out : list string) :
  let annot_headers := (read_annotations (Some af)).1.1 in
  let gene_col := (read_annotations (Some af)).1.2 in
  let annot_data := (read_annotations (Some af)).2 in
  let ann := default [] (annot_data !! g) in
  let cells := delete gene_col (padded annot_headers ann) in
  write_annot 0 annot_headers gene_col (annot_td ann) out =
    out ++ (td <$> cells)
  ∧ gene_col < length annot_headers
  ∧ length cells = length annot_headers - 1
  ∧ (∀ parts, annot_data !! g = Some parts →
       parts !! gene_col = Some g
       ∧ (length parts = length annot_headers →
          cells = delete gene_col parts))
  ∧ (annot_data !! g = None →
       cells = replicate (length annot_headers - 1) EmptyString).
Proof.
  intros annot_headers gene_col annot_data ann cells.
  assert (Hcol : gene_col < length annot_headers).
  { unfold gene_col, annot_headers. simpl. apply find_gene_col_lt.
    by destruct (split_cons (detect_delimiter (strip (readline af)))
                   (strip (readline af))) as (c & cs & ->). }
  split_and!.
  - apply write_annot_cells.
  - done.
  - unfold cells. rewrite length_delete_either. unfold padded.
    rewrite length_fmap, length_seq. by rewrite decide_True.
  - intros parts Hparts. split.
    + change annot_data with (foldl (annot_step gene_col) ∅ (tail af))
        in Hparts.
      rewrite annot_rows_lookup, lookup_empty in Hparts.
      destruct (last (indexed_rows gene_col g (tail af))) as [p|] eqn:Hlast;
        [|done].
      injection Hparts as ->.
      apply last_Some_elem_of in Hlast.
      by apply list_elem_of_filter in Hlast as [? _].
    + intros Hlen. unfold cells, ann. rewrite Hparts. simpl.
      by rewrite padded_same_length.
  - intros Hnone. unfold cells, ann. rewrite Hnone. simpl.
    by rewrite padded_nil, delete_replicate.
Qed.

Lemma mjoin_lookup_pad {A} (vals : list (option A)) n i :
  mjoin ((vals ++ replicate n None) !! i) = mjoin (vals !! i).
Proof.
  destruct (decide (i < length vals)) as [Hi|Hi].
  - by rewrite lookup_app_l.
  - rewrite lookup_app_r by lia. rewrite (lookup_ge_None_2 vals) by lia.
    destruct (replicate n None !! (i - length vals)) as [x|] eqn:Hx; [|done].
    apply lookup_replicate in Hx as [-> _]. done.
Qed.

(** X9. A row shorter than the header counts as the row completed with
    missing markers: the group means, the replicate series and the table
    cells of a row are those of the row followed by any number of missing
    values. *)
Theorem short_row_as_missing `{FloatText} (samples : list string)
    (vals : list (option float)) (n max_reps : nat) (out : list string) :
  let group_to_indices := (assign_groups samples).1 in
  let group_order := (assign_groups samples).2 in
  let completed := vals ++ replicate n None in
  gene_means group_to_indices group_order completed =
    gene_means group_to_indices group_order vals
  ∧ gene_replicates group_to_indices group_order max_reps completed =
      gene_replicates group_to_indices group_order max_reps vals
  ∧ write_sample_cells group_to_indices group_order completed out =
      write_sample_cells group_to_indices group_order vals out.
Proof.
  intros group_to_indices group_order completed.
  unfold group_to_indices, group_order, completed.
  assert (Hcol : ∀ s, column_values samples s (vals ++ replicate n None)
                      = column_values samples s vals).
  { intros s. unfold column_values. apply list_omap_ext.
    apply Forall2_same_length_lookup_2; [done|].
    intros i x y Hx Hy. simplify_eq. apply mjoin_lookup_pad. }
  split_and!.
  - rewrite !gene_means_ok. do 2 f_equal.
    + apply list_fmap_ext. intros _ s _. by rewrite Hcol.
    + apply list_fmap_ext. intros _ s _. by rewrite Hcol.
  - rewrite !gene_replicates_ok. f_equal. unfold replicate_series.
    apply list_omap_ext. apply Forall2_same_length_lookup_2; [done|].
    intros i r r' Hr Hr'. simplify_eq. unfold slot_series.
    assert (Hpts : omap (replicate_point samples (vals ++ replicate n None) r)
                     (first_seen samples)
                   = omap (replicate_point samples vals r) (first_seen samples)).
    { apply list_omap_ext. apply Forall2_same_length_lookup_2; [done|].
      intros j s s' Hs Hs'. simplify_eq. unfold replicate_point.
      destruct (columns_of s samples !! r) as [c|]; [|done]. simpl.
      by rewrite mjoin_lookup_pad. }
    by rewrite Hpts.
  - rewrite !write_sample_cells_ok. do 2 f_equal.
    apply list_fmap_ext. intros _ idx _. unfold sample_cell.
    by rewrite mjoin_lookup_pad.
Qed.

(** * Concrete runs, on double-precision floats *)

(** C1 fails as first stated.  Gene set [{A, B}], data lines [A,1], [A,2],
    [B,3] on the comma: the loop reads the three lines, the second line
    for [A] replaces the row of the first, and the row stored for [A] is
    [[2.0]] where the first matching row is [[1.0]]. *)
Lemma later_duplicate_row_wins :
  stored_rows (list_to_set ["A"; "B"]) comma ["A,1"; "A,2"; "B,3"] !! "A"
    = Some [Some (Binary64.of_nat 2)]
  ∧ first_matching_row comma "A" ["A,1"; "A,2"; "B,3"]
    = Some [Some (Binary64.of_nat 1)]
  ∧ lines_read (list_to_set ["A"; "B"]) comma ["A,1"; "A,2"; "B,3"] = 3.
Proof. split_and!; vm_compute; reflexivity. Qed.

(** C2 fails as first stated.  With an empty gene set the number of
    retained rows, 0, equals the size of the gene set on the first data
    line, yet the loop reads on: the test of line 78 runs only after a row
    is retained. *)
Lemma empty_gene_set_reads_on :
  first_full_line ∅ comma ["G1,1"; "G2,2"] 1
  ∧ lines_read ∅ comma ["G1,1"; "G2,2"] = 2.
Proof.
  split; [|vm_compute; reflexivity].
  split_and!; [lia | simpl; lia | vm_compute; reflexivity | intros j Hj; lia].
Qed.

(** C9 fails as first stated.  The cells [nan] and [inf] do not parse as
    finite numbers, and [float] accepts them: the row keeps a NaN and an
    infinity where the claim has the missing marker. *)
Lemma non_finite_cell_is_kept :
  parses_as_finite "nan" = false
  ∧ parses_as_finite "inf" = false
  ∧ parse_cells ["nan"; "inf"] = Ok [Some S754_nan; Some (S754_infinity false)]
  ∧ stored_rows {["G1"]} comma ["G1,nan,inf,x"] !! "G1"
    = Some [Some S754_nan; Some (S754_infinity false); None].
Proof. split_and!; vm_compute; reflexivity. Qed.

(** The scenario of the specification: header [Gene,A,A,B], gene list
    [G1], row [G1,1,3,5]. *)
Example atlas_scenario :
  (rep ← main ["G1"] ["Gene,A,A,B"; "G1,1,3,5"] None;
   Ok (out_group_order rep, out_line_series rep, out_heatmap_series rep,
       out_dot_data rep !! "G1"))
  = Ok (["A"; "B"],
        [("G1", [Some (Binary64.of_nat 2); Some (Binary64.of_nat 5)])],
        [("G1", [("A", Some (Binary64.of_nat 2));
                 ("B", Some (Binary64.of_nat 5))])],
        Some [("Rep 1", [("A", Binary64.of_nat 1); ("B", Binary64.of_nat 5)]);
              ("Rep 2", [("A", Binary64.of_nat 3)])]).
Proof. vm_compute. reflexivity. Qed.

(** A header with the gene-identifier column alone. *)
Example atlas_without_samples :
  (rep ← main ["G1"] ["Gene"; "G1"] None; Ok (out_group_order rep))
  = Raise ValueError.
Proof. vm_compute. reflexivity. Qed.

(** Gene list [A, B, C] with rows for [A] and [C] only: the heatmap has
    [C] then [A]; a group whose cells are all unreadable has a missing
    mean. *)
Example atlas_heatmap_order :
  (rep ← main ["A"; "B"; "C"] ["Gene;X;Y"; "C;2;-"; "A;4;?"] None;
   Ok ((out_line_series rep).*1, out_heatmap_series rep))
  = Ok (["A"; "C"],
        [("C", [("X", Some (Binary64.of_nat 2)); ("Y", None)]);
         ("A", [("X", Some (Binary64.of_nat 4)); ("Y", None)])]).
Proof. vm_compute. reflexivity. Qed.

(** Rounding to two decimals: 3.14159 gives 3.14, and 2.675, whose double
    is below the tie, gives 2.67. *)
Example atlas_rounding :
  (v ← Binary64.float_of_string "3.14159"; Ok (Binary64.round2 v))
    = Binary64.float_of_string "3.14"
  ∧ (v ← Binary64.float_of_string "2.675"; Ok (Binary64.round2 v))
    = Binary64.float_of_string "2.67".
Proof. split; vm_compute; reflexivity. Qed.

(** The annotation header [GeneID, Name, Type] and two rows for [G1]. *)
Example atlas_annotations :
  read_annotations (Some ["GeneID,Name,Type"; "G1,Kinase,enzyme"; "G1;Ligase;x"])
  = (["GeneID"; "Name"; "Type"], 0, {["G1" := ["G1"; "Ligase"; "x"]]}).
Proof. vm_compute. reflexivity. Qed.

(** A tab-separated line that ends in two empty cells: white space takes
    the trailing tabs away, and the row has one value. *)
Lemma trailing_whitespace_ignored_witness :
  let line := "G1" +:+ String tab "1" in
  let w := String tab (String tab nl) in
  whitespace w
  ∧ (row_gene tab (line +:+ w) = row_gene tab line
     ∧ row_values tab (line +:+ w) = row_values tab line
     ∧ stored_rows {["G1"]} tab ([] ++ (line +:+ w) :: ["G2"]) =
         stored_rows {["G1"]} tab ([] ++ line :: ["G2"])
     ∧ lines_read {["G1"]} tab ([] ++ (line +:+ w) :: ["G2"]) =
         lines_read {["G1"]} tab ([] ++ line :: ["G2"])).
Proof.
  split; [reflexivity|].
  apply (trailing_whitespace_ignored {["G1"]} tab [] ["G2"]
           ("G1" +:+ String tab "1") (String tab (String tab nl))).
  reflexivity.
Defined.

Example atlas_trailing_tabs :
  row_values tab ("G1" +:+ String tab "1" +:+ String tab (String tab nl))
  = [Some (Binary64.of_nat 1)].
Proof. vm_compute. reflexivity. Qed.

(** One requested gene, found on the first of two data lines. *)
Lemma unread_lines_all_found_witness :
  lines_read {["A"]} comma ["A,1"; "B,2"] < length ["A,1"; "B,2"]
  ∧ dom (stored_rows {["A"]} comma ["A,1"; "B,2"]) = {["A"]}.
Proof.
  split; [vm_compute; lia|].
  apply (unread_lines_all_found {["A"]} comma ["A,1"; "B,2"]).
  vm_compute; lia.
Defined.

(** Header [Gene,A,B,A]: the table shows the columns 0, 2, 1. *)
Example atlas_table_columns :
  table_columns ["A"; "B"; "A"] = [0; 2; 1]
  ∧ sample_heads ["A"; "B"; "A"] = ["A (1)"; "A (2)"; "B (1)"].
Proof. split; vm_compute; reflexivity. Qed.

(** A space-separated header has no sample column. *)
Example atlas_space_separated :
  (rep ← main ["G1"] ["Gene A B"; "G1 1 2"] None; Ok (out_group_order rep))
  = Raise ValueError.
Proof. vm_compute. reflexivity. Qed.
